(** * extract_zips.py: recursive extraction of zip archives

    A shallow embedding of [ZipExtractor/extract_zips.py].  The script is one
    routine, [main], that walks a directory tree, collects every path
    matching [*.zip], and extracts each archive next to itself, counting
    archives that were extracted and archives that were skipped.

    The embedding has three layers:
    - strings and [pathlib] paths ([suffix], [with_suffix], [parent]);
    - a file system (a finite map from absolute paths to nodes) together
      with the operating-system and [zipfile] calls the script makes, each
      of them a computation in a state-and-exception monad;
    - [main] itself, transcribed statement by statement. *)

From Stdlib Require Import ZArith Ascii String List.
From stdpp Require Import base tactics option list strings gmap fin_maps pretty.

(** ** Strings *)

Module Str.

Fixpoint take (n : nat) (s : string) : string :=
  match n, s with
  | S n', String a s' => String a (take n' s')
  | _, _ => EmptyString
  end.

Fixpoint drop (n : nat) (s : string) : string :=
  match n, s with
  | S n', String _ s' => drop n' s'
  | _, _ => s
  end.

(** [s.startswith(p)] *)
Fixpoint startswith (s p : string) {struct p} : bool :=
  match p, s with
  | EmptyString, _ => true
  | String b p', String a s' => Ascii.eqb a b && startswith s' p'
  | String _ _, EmptyString => false
  end.

(** [s.endswith(p)] *)
Definition endswith (s p : string) : bool :=
  (String.length p <=? String.length s)%nat
  && String.eqb (drop (String.length s - String.length p) s) p.

(** [p in s] *)
Fixpoint contains (s p : string) : bool :=
  startswith s p
  || match s with
     | EmptyString => false
     | String _ s' => contains s' p
     end.

(** [s.rfind(c)]: the highest index holding [c], or [-1]. *)
Fixpoint rfind (s : string) (c : ascii) : Z :=
  match s with
  | EmptyString => (-1)%Z
  | String a s' =>
      let i := rfind s' c in
      if (0 <=? i)%Z then (i + 1)%Z
      else if Ascii.eqb a c then 0%Z else (-1)%Z
  end.

(** [sep.join(l)] *)
Fixpoint join (sep : string) (l : list string) : string :=
  match l with
  | [] => ""
  | [x] => x
  | x :: l' => x +:+ sep +:+ join sep l'
  end.

(** [s.split(c)], with the piece being read kept in [cur]. *)
Fixpoint split_go (c : ascii) (cur : string) (s : string) : list string :=
  match s with
  | EmptyString => [String.rev cur]
  | String a s' =>
      if Ascii.eqb a c then String.rev cur :: split_go c "" s'
      else split_go c (String a cur) s'
  end.

Definition split (c : ascii) (s : string) : list string := split_go c "" s.

End Str.

(** ** Paths

    A [pathlib.Path] that is absolute: the list of its components below
    the root directory.  [[]] is the root itself. *)

Definition Path := list string.

Module PurePath.

(** [str(p)] *)
Definition str (p : Path) : string := "/" +:+ Str.join "/" p.

(** [p.name]: the final component, empty for the root. *)
Definition name (p : Path) : string := List.last p "".

(** [p.parent]: the root is its own parent. *)
Definition parent (p : Path) : Path := removelast p.

(** [p.suffix]:
<<
    name = self.name
    i = name.rfind('.')
    if 0 < i < len(name) - 1: return name[i:]
    else: return ''
>> *)
Definition suffix (p : Path) : string :=
  let name := name p in
  let i := Str.rfind name "." in
  if (0 <? i)%Z && (i <? Z.of_nat (String.length name) - 1)%Z
  then Str.drop (Z.to_nat i) name
  else "".

(** [p.stem]: the name up to its suffix. *)
Definition stem (p : Path) : string :=
  let name := name p in
  let i := Str.rfind name "." in
  if (0 <? i)%Z && (i <? Z.of_nat (String.length name) - 1)%Z
  then Str.take (Z.to_nat i) name
  else name.

End PurePath.

(** ** Exceptions

    The exceptions this program can meet.  All but [SystemExit] are
    subclasses of [Exception]; [PermissionError], [FileExistsError],
    [FileNotFoundError], [IsADirectoryError] and [NotADirectoryError] are
    the [OSError]s. *)

Inductive exn :=
| SystemExit (code : Z)
| ValueError (msg : string)
| BadZipFile (msg : string)
| RuntimeError (msg : string)
| PermissionError (msg : string)
| FileExistsError (msg : string)
| FileNotFoundError (msg : string)
| IsADirectoryError (msg : string)
| NotADirectoryError (msg : string).

(** [str(e)] *)
Definition exn_str (e : exn) : string :=
  match e with
  | SystemExit code => pretty code
  | ValueError m | BadZipFile m | RuntimeError m | PermissionError m
  | FileExistsError m | FileNotFoundError m | IsADirectoryError m
  | NotADirectoryError m => m
  end.

Module PurePathOps.
Import PurePath.

(** [p.with_suffix(suffix)], for the empty [suffix] the script passes
    and any other that starts with a dot:
<<
    name = self.name
    if not name: raise ValueError("%r has an empty name" % (self,))
    old_suffix = self.suffix
    if not old_suffix: name = name + suffix
    else: name = name[:-len(old_suffix)] + suffix
    return self._from_parsed_parts(..., self._parts[:-1] + [name])
>> *)
Definition with_suffix (p : Path) (suffix : string) : exn + Path :=
  let name := name p in
  if String.eqb name "" then
    inl (ValueError ("PosixPath('" +:+ str p +:+ "') has an empty name"))
  else
    let old_suffix := PurePath.suffix p in
    let name' :=
      if String.eqb old_suffix "" then name +:+ suffix
      else Str.take (String.length name - String.length old_suffix) name
           +:+ suffix in
    inr (removelast p ++ [name']).

End PurePathOps.

(** ** Archives, files and the file system *)

(** [zipfile.ZipInfo]: what the central directory records for a member. *)
Record ZipInfo := {
  filename : string;        (* path inside the archive, [/]-separated *)
  CRC : N;                  (* stored CRC-32 of the member's data *)
  encrypted : bool          (* bit 0 of [flag_bits] *)
}.

(** What a regular file holds: a well-formed zip container with its
    members in central-directory order, or anything else. *)
Inductive content :=
| Raw (data : list Byte.byte)
| Zip (members : list member)
with member :=
| Member (info : ZipInfo) (data : content).

(** A node of the file system.  A locked file can be neither read nor
    written by this process; nothing can be created in a locked
    directory. *)
Inductive node :=
| File (locked : bool) (data : content)
| Dir (locked : bool).

Inductive level := DEBUG | INFO | WARNING | ERROR.

Record LogRecord := { levelname : level; message : string }.

(** The state [main] runs in: the file system, the records handed to
    [logging], the lines printed, and the two counters of [main] that
    the loop updates. *)
Record state := {
  fs : gmap Path node;
  log : list LogRecord;
  stdout : list string;
  extracted_count : nat;
  skipped_count : nat
}.

Definition set_fs (f : gmap Path node → gmap Path node) (s : state) : state :=
  {| fs := f (fs s); log := log s; stdout := stdout s;
     extracted_count := extracted_count s; skipped_count := skipped_count s |}.

Definition add_log (r : LogRecord) (s : state) : state :=
  {| fs := fs s; log := log s ++ [r]; stdout := stdout s;
     extracted_count := extracted_count s; skipped_count := skipped_count s |}.

Definition add_line (l : string) (s : state) : state :=
  {| fs := fs s; log := log s; stdout := stdout s ++ [l];
     extracted_count := extracted_count s; skipped_count := skipped_count s |}.

Definition set_extracted_count (n : nat) (s : state) : state :=
  {| fs := fs s; log := log s; stdout := stdout s;
     extracted_count := n; skipped_count := skipped_count s |}.

Definition set_skipped_count (n : nat) (s : state) : state :=
  {| fs := fs s; log := log s; stdout := stdout s;
     extracted_count := extracted_count s; skipped_count := n |}.

(** ** The monad of statements

    A statement maps a state to the state it leaves and either the value
    it returns or the exception it raises.  What was done before an
    exception was raised stays done.  Library calls run on the file
    system alone ([FS]); the script runs on the whole state ([M]). *)

Definition ST (S A : Type) : Type := S → S * (exn + A).

#[export] Instance ST_ret {S} : MRet (ST S) := λ A a s, (s, inr a).

#[export] Instance ST_bind {S} : MBind (ST S) := λ A B f m s,
  match m s with
  | (s', inr a) => f a s'
  | (s', inl e) => (s', inl e)
  end.

Abbreviation FS := (ST (gmap Path node)).
Abbreviation M := (ST state).

Definition raise {S A} (e : exn) : ST S A := λ s, (s, inl e).

(** [try: m  except: h e], where [h] re-raises what no clause catches. *)
Definition try_except {S A} (m : ST S A) (h : exn → ST S A) : ST S A := λ s,
  match m s with
  | (s', inl e) => h e s'
  | r => r
  end.

Definition lift {S A} (r : exn + A) : ST S A := λ s, (s, r).

Definition gets {S A} (f : S → A) : ST S A := λ s, (s, inr (f s)).

Definition modify {S} (f : S → S) : ST S unit := λ s, (f s, inr tt).

(** A library call made by the script: it sees and changes the file
    system, nothing else. *)
Definition on_fs {A} (m : FS A) : M A := λ s,
  let '(m', r) := m (fs s) in (set_fs (λ _, m') s, r).

Fixpoint for_each {S A} (l : list A) (body : A → ST S unit) : ST S unit :=
  match l with
  | [] => mret tt
  | x :: l' => body x ;; for_each l' body
  end.

Definition print (line : string) : M unit := modify (add_line line).

Module logging.
Definition emit (l : level) (msg : string) : M unit :=
  modify (add_log {| levelname := l; message := msg |}).
Definition info := emit INFO.
Definition warning := emit WARNING.
Definition error := emit ERROR.
End logging.

Module sys.
Definition exit {A} (code : Z) : M A := raise (SystemExit code).
End sys.

(** ** Operating-system and [pathlib] calls

    The file system is a tree of directories and regular files, each node
    kept under the names on the way to it from the root.  The tree has no
    symbolic links, every directory in it may be searched and listed
    (write protection is the one permission it knows), and a path is taken
    as the list of names it is: [.] and [..] are names like any other to
    the calls below, where on disk they stand for a directory itself and
    for the one above it.  Properties that depend on what such a name
    stands for are stated for paths without them.  A scan returns paths
    in the order of the map, where the script gets them in the order the
    operating system lists a directory. *)

Module os.
Import PurePath.

Definition quoted (p : Path) : string := "'" +:+ str p +:+ "'".

Definition EACCES (p : Path) : exn :=
  PermissionError ("[Errno 13] Permission denied: " +:+ quoted p).
Definition EEXIST (p : Path) : exn :=
  FileExistsError ("[Errno 17] File exists: " +:+ quoted p).
Definition ENOENT (p : Path) : exn :=
  FileNotFoundError ("[Errno 2] No such file or directory: " +:+ quoted p).
Definition EISDIR (p : Path) : exn :=
  IsADirectoryError ("[Errno 21] Is a directory: " +:+ quoted p).
Definition ENOTDIR (p : Path) : exn :=
  NotADirectoryError ("[Errno 20] Not a directory: " +:+ quoted p).

(** [p.exists()].  (Every directory above [p] may be searched, so the
    [stat] behind it fails only when there is nothing at [p].) *)
Definition exists_ (p : Path) (m : gmap Path node) : bool :=
  bool_decide (is_Some (m !! p)).

(** Make sure [q] is a directory, creating it in its parent when it is
    missing; [on_file] is raised when [q] is a regular file. *)
Definition ensure_dir (q : Path) (on_file : exn) : FS unit := λ m,
  match m !! q with
  | Some (Dir _) => (m, inr tt)
  | Some (File _ _) => (m, inl on_file)
  | None =>
      match m !! parent q with
      | Some (Dir false) => (<[q := Dir false]> m, inr tt)
      | Some (Dir true) => (m, inl (EACCES q))
      | Some (File _ _) => (m, inl (ENOTDIR q))
      | None => (m, inl (ENOENT q))
      end
  end.

(** Walk down from [pre] to [pre ++ rest], making sure every directory
    on the way exists, [pre] included.  When a regular file [pre] is in
    the way, with [rest] still to go, [on_file pre rest] is raised. *)
Fixpoint makedirs_from (pre : Path) (rest : list string)
    (on_file : Path → list string → exn) : FS unit :=
  match rest with
  | [] => ensure_dir pre (on_file pre [])
  | c :: rest' =>
      ensure_dir pre (on_file pre rest) ;;
      makedirs_from (pre ++ [c]) rest' on_file
  end.

(** What [os.mkdir(p)] raises for a regular file on the way to [p], a
    call that is made for [p] itself before any directory above it is
    looked at: [EEXIST] when the file is [p], [ENOTDIR] when it is
    above [p]; both name [p]. *)
Definition mkdir_on_file (pre : Path) (rest : list string) : exn :=
  match rest with
  | [] => EEXIST pre
  | _ => ENOTDIR (pre ++ rest)
  end.

(** [p.mkdir(parents=True, exist_ok=True)]:
<<
    try: os.mkdir(self, mode)
    except FileNotFoundError:
        if not parents or self.parent == self: raise
        self.parent.mkdir(parents=True, exist_ok=True)
        self.mkdir(mode, parents=False, exist_ok=exist_ok)
    except OSError:
        if not exist_ok or not self.is_dir(): raise
>> *)
Definition mkdir_parents_exist_ok (p : Path) : FS unit :=
  makedirs_from [] p mkdir_on_file.

(** [open(p, "wb")] followed by writing [data] and closing. *)
Definition write_file (p : Path) (data : content) : FS unit := λ m,
  match m !! p with
  | Some (Dir _) => (m, inl (EISDIR p))
  | Some (File true _) => (m, inl (EACCES p))
  | Some (File false _) => (<[p := File false data]> m, inr tt)
  | None =>
      match m !! parent p with
      | Some (Dir false) => (<[p := File false data]> m, inr tt)
      | Some (Dir true) => (m, inl (EACCES p))
      | Some (File _ _) => (m, inl (ENOTDIR p))
      | None => (m, inl (ENOENT p))
      end
  end.

(** [fnmatch(name, "*.zip")] on a POSIX system: case matters, and a
    leading dot is matched like any other character. *)
Definition fnmatch_zip (name : string) : bool := Str.endswith name ".zip".

(** [list(base.rglob("*.zip"))]: every path strictly below [base],
    file or directory, whose name matches.  (Every directory may be
    listed; [rglob] passes over one that may not.) *)
Definition rglob_zip (base : Path) (m : gmap Path node) : list Path :=
  filter (λ p, base `prefix_of` p ∧ p ≠ base ∧ fnmatch_zip (name p))
         (map_to_list m).*1.

End os.

(** ** The [zipfile] module

    [crc32] is the checksum of a member's data, as [zlib.crc32] computes
    it; the development is parametric in it. *)

Module zipfile.
Section zipfile.
Import PurePath.
Variable crc32 : content → N.

(** [zipfile.ZipFile(file, 'r')]: open the file for reading and read the
    central directory. *)
Definition ZipFile (file : Path) : FS (list member) := λ m,
  match m !! file with
  | None => (m, inl (os.ENOENT file))
  | Some (Dir _) => (m, inl (os.EISDIR file))
  | Some (File true _) => (m, inl (os.EACCES file))
  | Some (File false (Raw _)) => (m, inl (BadZipFile "File is not a zip file"))
  | Some (File false (Zip members)) => (m, inr members)
  end.

Definition password_required (zi : ZipInfo) : exn :=
  RuntimeError ("File '" +:+ filename zi
                +:+ "' is encrypted, password required for extraction").

(** [x.filename], for an entry [x] of the directory. *)
Definition member_name (x : member) : string :=
  let 'Member zi _ := x in filename zi.

(** [zf.namelist()] *)
Definition namelist (members : list member) : list string :=
  member_name <$> members.

(** [zf.getinfo(name)].  The directory is read in order into
    [NameToInfo] ([self.NameToInfo[x.filename] = x]), so of several
    entries with one name the last is the one a name gives. *)
Definition getinfo (members : list member) (name : string)
    : option member :=
  last (filter (λ x, member_name x = name) members).

(** The entries as [zipfile] reads them: it goes through the directory
    in order and asks for each entry by its name, in [testzip]
    ([self.open(zinfo.filename)]) as in [extractall]
    ([self.getinfo(member)] for the members of [namelist()]).  Every
    name asked for is in the directory, so [getinfo] finds it. *)
Definition entries_by_name (members : list member) : list member :=
  omap (getinfo members) (namelist members).

(** Read every entry of [entries] to its end and check its CRC: the name
    of the first bad one, or [None].  Opening an encrypted entry without
    a password raises [RuntimeError]. *)
Fixpoint read_all (entries : list member) : exn + option string :=
  match entries with
  | [] => inr None
  | Member zi data :: rest =>
      if encrypted zi then inl (password_required zi)
      else if (crc32 data =? CRC zi)%N then read_all rest
      else inr (Some (filename zi))
  end.

(** [zf.testzip()]:
<<
    for zinfo in self.filelist:
        try:
            with self.open(zinfo.filename, "r") as f:
                while f.read(chunk_size): pass
        except BadZipFile:
            return zinfo.filename
>> *)
Definition testzip (members : list member) : exn + option string :=
  read_all (entries_by_name members).

(** [zi.is_dir()] *)
Definition is_dir (zi : ZipInfo) : bool := Str.endswith (filename zi) "/".

(** The member's name as a relative path, with empty, [.] and [..]
    components dropped. *)
Definition arcname (zi : ZipInfo) : list string :=
  filter (λ x, x ∉ [""; "."; ".."]) (Str.split "/" (filename zi)).

(** What making the directories above [targetpath] raises for a regular
    file [pre] on the way.  [os.makedirs] goes up to the first path that
    exists and calls [os.mkdir] for the name below it, which is
    [ENOTDIR] for that name; when the file is the last of them nothing
    is made, and opening [targetpath] is [ENOTDIR] for [targetpath]. *)
Definition makedirs_on_file (targetpath pre : Path) (rest : list string)
    : exn :=
  match rest with
  | [] => os.ENOTDIR targetpath
  | c :: _ => os.ENOTDIR (pre ++ [c])
  end.

(** [zf._extract_member(member, path, None)], for the entry [member]
    that [getinfo] gave:
<<
    targetpath = os.path.join(path, arcname)
    upperdirs = os.path.dirname(targetpath)
    if upperdirs and not os.path.exists(upperdirs): os.makedirs(upperdirs)
    if member.is_dir():
        if not os.path.isdir(targetpath): os.mkdir(targetpath)
        return targetpath
    with self.open(member, pwd=pwd) as source, \
         open(targetpath, "wb") as target:
        shutil.copyfileobj(source, target)
>> *)
Definition extract_member (path : Path) (m : member) : FS unit :=
  let 'Member zi data := m in
  let targetpath := path ++ arcname zi in
  let upperdirs := parent targetpath in
  os.makedirs_from [] upperdirs (makedirs_on_file targetpath) ;;
  if is_dir zi then os.ensure_dir targetpath (os.EEXIST targetpath)
  else
    (if encrypted zi then raise (password_required zi) else mret tt) ;;
    os.write_file targetpath data ;;
    if (crc32 data =? CRC zi)%N then mret tt
    else raise (BadZipFile ("Bad CRC-32 for file '" +:+ filename zi +:+ "'")).

(** [zf.extractall(path=path)]:
<<
    members = self.namelist()
    for zipinfo in members:
        self._extract_member(zipinfo, path, pwd)
>> *)
Definition extractall (members : list member) (path : Path) : FS unit :=
  for_each (entries_by_name members) (extract_member path).

End zipfile.
End zipfile.

(** ** The script *)

Section extract_zips.
Import PurePath.
Variable crc32 : content → N.

(** Where an archive goes (lines 35-38): a folder named like the file
    without [.zip], or the folder the archive is in. *)
Definition extract_dir_of (extract_into_subfolder : bool) (zpath : Path)
    : exn + Path :=
  if extract_into_subfolder
  then PurePathOps.with_suffix zpath ""
  else inr (parent zpath).

(** The statements under [try:] (lines 43-55). *)
Definition try_block (zpath extract_dir : Path) : M unit :=
  zf ← on_fs (zipfile.ZipFile zpath);
  bad_file ← lift (zipfile.testzip crc32 zf);
  match bad_file with
  | Some bad_file =>
      logging.warning ("Corrupted member '" +:+ bad_file +:+ "' inside "
                       +:+ str zpath +:+ ". Skipping.") ;;
      modify (λ s, set_skipped_count (skipped_count s + 1) s)
      (* continue *)
  | None =>
      on_fs (zipfile.extractall crc32 zf extract_dir) ;;
      logging.info ("Extracted: " +:+ str zpath +:+ " -> "
                    +:+ str extract_dir) ;;
      modify (λ s, set_extracted_count (extracted_count s + 1) s)
  end.

(** The [except] clauses (lines 57-69), tried in order. *)
Definition except_clauses (zpath : Path) (e : exn) : M unit :=
  match e with
  | BadZipFile _ =>
      logging.warning ("Bad/corrupted zip file (BadZipFile): "
                       +:+ str zpath +:+ ". Skipping.") ;;
      modify (λ s, set_skipped_count (skipped_count s + 1) s)
  | RuntimeError _ =>
      logging.warning ("RuntimeError with " +:+ str zpath +:+ ": "
                       +:+ exn_str e +:+ ". Skipping.") ;;
      modify (λ s, set_skipped_count (skipped_count s + 1) s)
  | PermissionError _ =>
      logging.error ("PermissionError extracting " +:+ str zpath
                     +:+ ": " +:+ exn_str e +:+ ". Skipping.") ;;
      modify (λ s, set_skipped_count (skipped_count s + 1) s)
  | SystemExit _ => raise e      (* not an [Exception] *)
  | _ =>
      logging.error ("Unexpected error with " +:+ str zpath +:+ ": "
                     +:+ exn_str e +:+ ". Skipping.") ;;
      modify (λ s, set_skipped_count (skipped_count s + 1) s)
  end.

(** One pass through the body of [for zpath in zip_paths:]
    (lines 31-69). *)
Definition loop_body (extract_into_subfolder : bool) (zpath : Path)
    : M unit :=
  extract_dir ← lift (extract_dir_of extract_into_subfolder zpath);
  on_fs (os.mkdir_parents_exist_ok extract_dir) ;;
  try_except (try_block zpath extract_dir) (except_clauses zpath).

(** [main(base_dir, extract_into_subfolder)] (lines 15-74). *)
Definition main (base_dir : Path) (extract_into_subfolder : bool)
    : M unit :=
  found ← gets (λ s, os.exists_ base_dir (fs s));
  (if negb found then
     print ("Error: base directory does not exist: " +:+ str base_dir) ;;
     sys.exit 1
   else mret tt) ;;
  zip_paths ← gets (λ s, os.rglob_zip base_dir (fs s));
  match zip_paths with
  | [] => print ("No .zip files found under: " +:+ str base_dir)
  | _ =>
      let total := length zip_paths in
      modify (set_extracted_count 0) ;;
      modify (set_skipped_count 0) ;;
      for_each zip_paths (loop_body extract_into_subfolder) ;;
      print "" ;;
      print ("Scanned " +:+ pretty total +:+ " .zip files.") ;;
      n ← gets extracted_count;
      print ("Successfully extracted: " +:+ pretty n) ;;
      n ← gets skipped_count;
      print ("Skipped / failed: " +:+ pretty n)
  end.

End extract_zips.

(** The exit status of the process once [main] has run. *)
Definition exit_status (r : exn + unit) : Z :=
  match r with
  | inr _ => 0
  | inl (SystemExit code) => code
  | inl _ => 1
  end.

(** ** Vocabulary for the properties *)

(** A name that an entry of a directory can have.  ([.] and [..] are in
    every directory, for the directory itself and the one above it.) *)
Definition ordinary (n : string) : Prop := n ≠ "" ∧ n ≠ "." ∧ n ≠ "..".

#[global] Instance ordinary_dec (n : string) : Decision (ordinary n).
Proof. unfold ordinary. apply _. Defined.

(** A tree as a disk holds it: every node is kept under names that
    directory entries can have. *)
Definition canonical (m : gmap Path node) : Prop :=
  map_Forall (λ (p : Path) (_ : node), Forall ordinary p) m.

(** The exceptions an [except Exception] clause catches. *)
Definition is_Exception (e : exn) : Prop :=
  match e with
  | SystemExit _ => False
  | _ => True
  end.

(** Every exception [m] can raise satisfies [P]. *)
Definition raises_only {S A} (P : exn → Prop) (m : ST S A) : Prop :=
  ∀ s s' e, m s = (s', inl e) → P e.

(** Whatever [m] does, the state it leaves is [R]-related to the state
    it started in. *)
Definition steps {S A} (R : relation S) (m : ST S A) : Prop :=
  ∀ s s' r, m s = (s', r) → R s s'.

(** Two nodes of the same kind with the same lock. *)
Definition same_shape (n n' : node) : Prop :=
  match n, n' with
  | File l _, File l' _ => l = l'
  | Dir l, Dir l' => l = l'
  | _, _ => False
  end.

(** Nothing can be created at [q]: its parent is locked, or a regular
    file, or the missing root. *)
Definition blocked (m : gmap Path node) (q : Path) : Prop :=
  m !! q = None
  ∧ match m !! PurePath.parent q with
    | Some (Dir false) => False
    | Some _ => True
    | None => PurePath.parent q = []
    end.

(** How a file system can change under this program: what is there stays,
    with its kind and lock (file contents may change); what cannot be
    created stays absent. *)
Definition grows (m m' : gmap Path node) : Prop :=
  ∀ q, match m !! q with
       | Some n => ∃ n', m' !! q = Some n' ∧ same_shape n n'
       | None => blocked m q → m' !! q = None
       end.

(** [m'] is [m] with some directories added and nothing else changed. *)
Definition adds_dirs (m m' : gmap Path node) : Prop :=
  ∀ q, m' !! q = m !! q ∨ (m !! q = None ∧ m' !! q = Some (Dir false)).

(** A member that reads back without complaint: no password needed, and
    the checksum of its data is the stored one. *)
Definition member_ok (crc32 : content → N) (x : member) : Prop :=
  let 'Member zi data := x in encrypted zi = false ∧ crc32 data = CRC zi.

(** A second run replaying a first one.  The first run went from [m0] to
    [mf] and is now at [m1]; the second run started from [mf] and is now at
    [m2].  At every path, either the two runs hold the same node, or the
    first run still holds what it started with while the second holds what
    the first one ended with. *)
Definition replays (m0 mf m1 m2 : gmap Path node) : Prop :=
  ∀ q, m2 !! q = m1 !! q ∨ (m1 !! q = m0 !! q ∧ m2 !! q = mf !! q).

(** The statement [c] does in the second run what it did in the first:
    started from replaying states (the first of them satisfying [pre]), it
    gives the same result and leaves replaying states.  [proj] reads the
    file system off the state. *)
Definition replayed {S A : Type} (m0 mf : gmap Path node) (proj : S → gmap Path node)
    (pre : S → Prop) (c : ST S A) : Prop :=
  ∀ s1 s1' r s2,
    pre s1 → c s1 = (s1', r) → grows (proj s1') mf →
    replays m0 mf (proj s1) (proj s2) →
    ∃ s2', c s2 = (s2', r) ∧ replays m0 mf (proj s1') (proj s2').

(** The parent of [q] is the root, or is there. *)
Definition parent_known (q : Path) (m : gmap Path node) : Prop :=
  PurePath.parent q = [] ∨ is_Some (m !! PurePath.parent q).

(** [grows], for the file systems of two states. *)
Definition fs_grows (s s' : state) : Prop := grows (fs s) (fs s').

(** The part of the state library calls leave alone. *)
Definition same_script_state (s s' : state) : Prop :=
  log s' = log s ∧ stdout s' = stdout s
  ∧ extracted_count s' = extracted_count s
  ∧ skipped_count s' = skipped_count s.

(** What is logged, and counted, for an archive that is skipped. *)
Definition skip_with (l : level) (msg : string) (s : state) : state :=
  set_skipped_count (skipped_count s + 1)
    (add_log {| levelname := l; message := msg |} s).

(** The severity and the message of each [except] clause. *)
Definition clause_level (e : exn) : level :=
  match e with
  | BadZipFile _ | RuntimeError _ => WARNING
  | _ => ERROR
  end.

Definition clause_message (zpath : Path) (e : exn) : string :=
  match e with
  | BadZipFile _ =>
      "Bad/corrupted zip file (BadZipFile): " +:+ PurePath.str zpath
      +:+ ". Skipping."
  | RuntimeError _ =>
      "RuntimeError with " +:+ PurePath.str zpath +:+ ": " +:+ exn_str e
      +:+ ". Skipping."
  | PermissionError _ =>
      "PermissionError extracting " +:+ PurePath.str zpath +:+ ": "
      +:+ exn_str e +:+ ". Skipping."
  | _ =>
      "Unexpected error with " +:+ PurePath.str zpath +:+ ": " +:+ exn_str e
      +:+ ". Skipping."
  end.

(** The four [print] calls that end [main] (lines 71-74). *)
Definition report (total : nat) : M unit :=
  print "" ;;
  print ("Scanned " +:+ pretty total +:+ " .zip files.") ;;
  n ← gets extracted_count;
  print ("Successfully extracted: " +:+ pretty n) ;;
  n ← gets skipped_count;
  print ("Skipped / failed: " +:+ pretty n).

(** The counters as lines 28-29 set them. *)
Definition reset_counts (s : state) : state :=
  set_skipped_count 0 (set_extracted_count 0 s).

(** ** A checksum and sample trees *)

Module Sample.

(** CRC-32 as [zlib.crc32] computes it (reflected polynomial
    [0xEDB88320], initial value and final xor [0xFFFFFFFF]). *)
Definition crc32_update (crc : N) (b : Byte.byte) : N :=
  Nat.iter 8
    (λ c, if N.testbit c 0 then N.lxor (N.shiftr c 1) 0xEDB88320
          else N.shiftr c 1)
    (N.lxor crc (Byte.to_N b)).

Definition crc32_bytes (bs : list Byte.byte) : N :=
  N.lxor (fold_left crc32_update bs 0xFFFFFFFF%N) 0xFFFFFFFF.

(** The bytes of a nested archive are not modelled; its checksum is
    taken to be [0]. *)
Definition crc32 (c : content) : N :=
  match c with
  | Raw bs => crc32_bytes bs
  | Zip _ => 0
  end.

Definition bytes (s : string) : list Byte.byte :=
  String.list_byte_of_string s.

(** A member stored correctly. *)
Definition stored (name : string) (data : content) : member :=
  Member {| filename := name; CRC := crc32 data; encrypted := false |} data.

(** A member whose stored checksum is off by one. *)
Definition damaged (name : string) (data : content) : member :=
  Member {| filename := name; CRC := (crc32 data + 1)%N;
            encrypted := false |} data.

(** A member that needs a password. *)
Definition secret (name : string) (data : content) : member :=
  Member {| filename := name; CRC := crc32 data; encrypted := true |} data.

(** The state a fresh process starts in. *)
Definition boot (m : gmap Path node) : state :=
  {| fs := m; log := []; stdout := [];
     extracted_count := 0; skipped_count := 0 |}.

(** [/r] holding only the given entries. *)
Definition tree (entries : list (string * node)) : gmap Path node :=
  list_to_map (([], Dir false) :: (["r"], Dir false)
               :: (prod_map (λ n, ["r"; n]) id <$> entries)).

(** The archive of the specification: [x.txt] and [y/z.txt]. *)
Definition a_zip : content :=
  Zip [stored "x.txt" (Raw (bytes "hello"));
       stored "y/z.txt" (Raw (bytes "world"))].

(** A good archive next to one whose second member is damaged. *)
Definition good_and_damaged : gmap Path node :=
  tree [("a.zip", File false a_zip);
        ("b.zip", File false (Zip [stored "fine.txt" (Raw (bytes "fine"));
                                   damaged "bad.txt" (Raw (bytes "bad"));
                                   stored "late.txt" (Raw (bytes "late"))]))].

(** An archive with a damaged member, locked against reading. *)
Definition locked_damaged : gmap Path node :=
  tree [("b.zip", File true (Zip [damaged "bad.txt" (Raw (bytes "bad"))]))].

(** An archive whose first member needs a password and whose second is
    damaged. *)
Definition encrypted_first : gmap Path node :=
  tree [("f.zip", File false (Zip [secret "s.txt" (Raw (bytes "s"));
                                   damaged "bad.txt" (Raw (bytes "bad"))]))].

(** A file named like an archive that is not one. *)
Definition not_a_zip : gmap Path node :=
  tree [("c.zip", File false (Raw (bytes "plain text")))].

(** The archive of the specification, alone under [/r]. *)
Definition one_archive : gmap Path node :=
  tree [("a.zip", File false a_zip)].

(** An archive [b.zip] next to a regular file already called [b], and a
    second archive. *)
Definition name_taken : gmap Path node :=
  tree [("b", File false (Raw (bytes "notes")));
        ("b.zip", File false a_zip);
        ("a.zip", File false a_zip)].

(** A directory whose name ends in [.zip], next to a real archive. *)
Definition zip_named_dir : gmap Path node :=
  tree [("d.zip", Dir false); ("a.zip", File false a_zip)].

(** An archive that holds another archive. *)
Definition nested : gmap Path node :=
  tree [("a.zip", File false (Zip [stored "in.zip" a_zip]))].

(** Two good archives side by side. *)
Definition two_archives : gmap Path node :=
  tree [("a.zip", File false a_zip);
        ("b.zip", File false (Zip [stored "n.txt" (Raw (bytes "n"))]))].

(** An archive with two entries of one name, the first of them damaged. *)
Definition shadowed : gmap Path node :=
  tree [("s.zip", File false (Zip [damaged "dup.txt" (Raw (bytes "old"));
                                   stored "dup.txt" (Raw (bytes "new"))]))].


End Sample.

(** ** The logging set-up of the entry point (lines 92-93) *)

Module cli.

(** [logging.DEBUG], [logging.INFO], ...: the numeric value of a level. *)
Definition levelno (l : level) : nat :=
  match l with
  | DEBUG => 10
  | INFO => 20
  | WARNING => 30
  | ERROR => 40
  end.

(** [%(levelname)s] *)
Definition levelname_str (l : level) : string :=
  match l with
  | DEBUG => "DEBUG"
  | INFO => "INFO"
  | WARNING => "WARNING"
  | ERROR => "ERROR"
  end.

(** [level=logging.DEBUG if args.verbose else logging.INFO] *)
Definition basicConfig_level (verbose : bool) : level :=
  if verbose then DEBUG else INFO.

(** [format="%(levelname)s: %(message)s"] *)
Definition format (r : LogRecord) : string :=
  levelname_str (levelname r) +:+ ": " +:+ message r.

(** What the handler installed by [basicConfig] writes for the records
    handed to [logging]: those at or above the level of the root logger,
    formatted. *)
Definition handler_lines (verbose : bool) (records : list LogRecord)
    : list string :=
  format <$> filter (λ r, levelno (basicConfig_level verbose)
                          ≤ levelno (levelname r)) records.

End cli.

(** ** Vocabulary for further properties *)

(** Every path from the root down to [p], [p] included, is a directory. *)
Definition dir_chain (p : Path) (m : gmap Path node) : Prop :=
  ∀ q : Path, q `prefix_of` p → ∃ l, m !! q = Some (Dir l).

(** Every node but the root sits in a directory. *)
Definition well_formed (m : gmap Path node) : Prop :=
  ∀ (p : Path) n, m !! p = Some n → p ≠ [] →
    ∃ l, m !! PurePath.parent p = Some (Dir l).

(** [m'] differs from [m] only strictly below [b]. *)
Definition only_below (b : Path) (m m' : gmap Path node) : Prop :=
  ∀ p : Path, ¬ (b `prefix_of` p ∧ p ≠ b) → m' !! p = m !! p.

(** A step that keeps a well-formed tree well formed. *)
Definition keeps_well_formed : relation (gmap Path node) :=
  λ m m', well_formed m → well_formed m'.

(** A step that, when [b] is a directory with directories above it,
    leaves it so and changes nothing but what is strictly below it. *)
Definition stays_below (b : Path) : relation (gmap Path node) :=
  λ m m', dir_chain b m → dir_chain b m' ∧ only_below b m m'.

(** [q] is on the way from the root to [b], or at or below [b]. *)
Definition near (b q : Path) : Prop := q `prefix_of` b ∨ b `prefix_of` q.

(** A relation between file systems, for the file systems of two states. *)
Definition on_states (R : relation (gmap Path node)) : relation state :=
  λ s s', R (fs s) (fs s').

(** [o] is a directory that is there. *)
Definition is_dir_node (o : option node) : bool :=
  match o with
  | Some (Dir _) => true
  | _ => false
  end.

(** [dir_chain] and [well_formed], as checks that compute. *)
Definition dir_chain_check (p : Path) (m : gmap Path node) : bool :=
  forallb (λ n, is_dir_node (m !! take n p)) (seq 0 (S (length p))).

Definition well_formed_check (m : gmap Path node) : bool :=
  forallb (λ q : Path,
             bool_decide (q = []) || is_dir_node (m !! PurePath.parent q))
          (map_to_list m).*1.

(** Files this process may not write keep their contents. *)
Definition keeps_locked (m m' : gmap Path node) : Prop :=
  ∀ (p : Path) c, m !! p = Some (File true c) → m' !! p = Some (File true c).


#[global] Instance level_eq_dec : EqDecision level.
Proof. solve_decision. Defined.

(** How many records of a log are at level [INFO]. *)
Definition count_info (records : list LogRecord) : nat :=
  length (filter (λ r, levelname r = INFO) records).

(** * Properties *)

(** ** Strings *)

Module StrFacts.
Import Str.

Lemma app_cons a (s t : string) : String a s +:+ t = String a (s +:+ t).
Proof. reflexivity. Qed.

Lemma app_nil_l (s : string) : "" +:+ s = s.
Proof. reflexivity. Qed.

Lemma app_nil_r (s : string) : s +:+ "" = s.
Proof. induction s as [|a s IH]; [done|]. by rewrite app_cons, IH. Qed.

Lemma app_assoc (s t u : string) : (s +:+ t) +:+ u = s +:+ t +:+ u.
Proof. induction s as [|a s IH]; [done|]. by rewrite !app_cons, IH. Qed.

Lemma length_app (s t : string) :
  String.length (s +:+ t) = String.length s + String.length t.
Proof. induction s as [|a s IH]; [done|]. rewrite app_cons. simpl. lia. Qed.

Lemma take_drop n s : take n s +:+ drop n s = s.
Proof.
  revert s. induction n as [|n IH]; intros [|a s]; simpl; try done.
  by rewrite app_cons, IH.
Qed.

Lemma length_drop n s : String.length (drop n s) = String.length s - n.
Proof. revert s. induction n as [|n IH]; intros [|a s]; simpl; auto. Qed.

Lemma take_app_length (s t : string) : take (String.length s) (s +:+ t) = s.
Proof. induction s as [|a s IH]; simpl; [by destruct t|]. by rewrite IH. Qed.

Lemma drop_app_length (s t : string) : drop (String.length s) (s +:+ t) = t.
Proof. induction s as [|a s IH]; [done|]. by rewrite app_cons. Qed.

Lemma endswith_app (s p : string) : endswith (s +:+ p) p = true.
Proof.
  unfold endswith. rewrite length_app.
  replace (String.length s + String.length p - String.length p)
    with (String.length s) by lia.
  rewrite drop_app_length, String.eqb_refl, andb_true_r.
  apply Nat.leb_le. lia.
Qed.

Lemma endswith_inv (s p : string) :
  endswith s p = true →
  s = take (String.length s - String.length p) s +:+ p.
Proof.
  unfold endswith. intros [_ H%String.eqb_eq]%andb_true_iff.
  rewrite <-(take_drop (String.length s - String.length p) s) at 1.
  by rewrite H.
Qed.

Lemma startswith_app (p t : string) : startswith (p +:+ t) p = true.
Proof.
  induction p as [|a p IH]; [done|].
  rewrite app_cons. simpl. by rewrite Ascii.eqb_refl, IH.
Qed.

Lemma contains_app (s p t : string) : contains (s +:+ p +:+ t) p = true.
Proof.
  induction s as [|a s IH].
  - rewrite app_nil_l. pose proof (startswith_app p t) as H.
    destruct (p +:+ t); simpl; by rewrite H.
  - rewrite app_cons. simpl. rewrite IH. apply orb_true_r.
Qed.

(** The last dot of [n.zip] is the one before [zip]. *)
Lemma rfind_dot_zip (n : string) :
  rfind (n +:+ ".zip") "." = Z.of_nat (String.length n).
Proof.
  induction n as [|a n IH]; [done|].
  rewrite app_cons. cbn [rfind String.length]. rewrite IH.
  destruct (Z.leb_spec 0 (Z.of_nat (String.length n))); lia.
Qed.

End StrFacts.

(** ** Paths *)

Module PathFacts.
Import PurePath PurePathOps.

Lemma name_snoc (p : Path) (n : string) : name (p ++ [n]) = n.
Proof. unfold name. apply last_last. Qed.

Lemma parent_snoc (p : Path) (n : string) : parent (p ++ [n]) = p.
Proof. unfold parent. apply removelast_last. Qed.

Lemma parent_name (p : Path) : p ≠ [] → p = parent p ++ [name p].
Proof. intros. by apply app_removelast_last. Qed.

(** [suffix] and [stem] split the name. *)
Lemma stem_suffix (p : Path) : stem p +:+ suffix p = name p.
Proof.
  unfold stem, suffix.
  destruct (_ && _); [apply StrFacts.take_drop | apply StrFacts.app_nil_r].
Qed.

Lemma with_suffix_empty (p : Path) :
  name p ≠ "" → with_suffix p "" = inr (parent p ++ [stem p]).
Proof.
  intros Hn. unfold with_suffix.
  destruct (String.eqb_spec (name p) ""); [done|].
  do 3 f_equal. unfold suffix, stem.
  destruct (_ && _) eqn:Hc.
  - apply andb_true_iff in Hc as [Hlo%Z.ltb_lt Hhi%Z.ltb_lt].
    set (i := Str.rfind (name p) ".") in *.
    assert (String.length (Str.drop (Z.to_nat i) (name p)) =
            String.length (name p) - Z.to_nat i) as Hlen
      by apply StrFacts.length_drop.
    destruct (String.eqb_spec (Str.drop (Z.to_nat i) (name p)) "") as [E|_].
    { rewrite E in Hlen. simpl in Hlen. lia. }
    rewrite StrFacts.app_nil_r, Hlen. f_equal. lia.
  - simpl. apply StrFacts.app_nil_r.
Qed.

Lemma stem_zip (p : Path) (n : string) :
  n ≠ "" → name p = n +:+ ".zip" → stem p = n.
Proof.
  intros Hn Hp. unfold stem. rewrite Hp, StrFacts.rfind_dot_zip.
  rewrite StrFacts.length_app, Nat2Z.id. simpl String.length.
  destruct n as [|a n]; [done|].
  replace (_ && _) with true.
  - apply StrFacts.take_app_length.
  - symmetry. apply andb_true_iff. split; apply Z.ltb_lt; simpl; lia.
Qed.

End PathFacts.

(** ** Discovery *)

Module DiscoveryFacts.
Import PurePath.

Lemma elem_of_rglob_zip (base p : Path) (m : gmap Path node) :
  p ∈ os.rglob_zip base m ↔
  is_Some (m !! p) ∧ base `prefix_of` p ∧ p ≠ base
  ∧ os.fnmatch_zip (name p) = true.
Proof.
  unfold os.rglob_zip.
  rewrite list_elem_of_filter, list_elem_of_fmap, Is_true_true.
  split.
  - intros [(? & ? & ?) ([q x] & -> & Hx%elem_of_map_to_list)]; eauto.
  - intros ([x Hx] & ? & ? & ?). split; [done|].
    exists (p, x). split; [done|]. by apply elem_of_map_to_list.
Qed.

(** A discovered path is never the root, and its name is not empty. *)
Lemma rglob_zip_name (base p : Path) (m : gmap Path node) :
  p ∈ os.rglob_zip base m → p ≠ [] ∧ name p ≠ "".
Proof.
  intros (_ & Hpre & Hne & Hz)%elem_of_rglob_zip. split.
  - intros ->. by apply prefix_nil_inv in Hpre as ->.
  - intros E. by rewrite E in Hz.
Qed.

End DiscoveryFacts.


(** Archives called [..zip] and [...zip] have the stems [.] and [..]:
    their destinations are the paths of the directory they are in with
    [.] and with [..] added. *)
Example dot_stem_destinations :
  extract_dir_of true ["r"; "..zip"] = inr ["r"; "."]
  ∧ extract_dir_of true ["r"; "...zip"] = inr ["r"; ".."].
Proof. vm_compute. split; reflexivity. Qed.


(** ** The monad *)

Module MonadFacts.

Lemma bind_unfold {S A B} (m : ST S A) (f : A → ST S B) (s : S) :
  (m ≫= f) s =
  match m s with
  | (s', inr a) => f a s'
  | (s', inl e) => (s', inl e)
  end.
Proof. reflexivity. Qed.

Lemma bind_inv {S A B} (m : ST S A) (f : A → ST S B) (s s' : S) r :
  (m ≫= f) s = (s', r) →
  (∃ e, m s = (s', inl e) ∧ r = inl e)
  ∨ (∃ s1 a, m s = (s1, inr a) ∧ f a s1 = (s', r)).
Proof.
  rewrite bind_unfold. destruct (m s) as [s1 [e|a]]; intros; simplify_eq; eauto.
Qed.

Lemma for_each_cons_ok {S A} (x : A) (l : list A) (body : A → ST S unit)
    (s s' : S) :
  body x s = (s', inr tt) → for_each (x :: l) body s = for_each l body s'.
Proof. intros H. simpl. by rewrite bind_unfold, H. Qed.

Lemma for_each_app {S A} (l1 l2 : list A) (body : A → ST S unit) (s : S) :
  for_each (l1 ++ l2) body s =
  match for_each l1 body s with
  | (s', inr _) => for_each l2 body s'
  | (s', inl e) => (s', inl e)
  end.
Proof.
  revert s. induction l1 as [|x l1 IH]; intros s; [done|].
  simpl. rewrite !bind_unfold. destruct (body x s) as [s1 [e|[]]]; auto.
Qed.

Section steps.
Context {S : Type} (R : relation S) `{!PreOrder R}.

Lemma steps_ret {A} (a : A) : steps R (mret a).
Proof. intros s s' r [= <- _]. done. Qed.

Lemma steps_raise {A} (e : exn) : steps R (raise (A:=A) e).
Proof. intros s s' r [= <- _]. done. Qed.

Lemma steps_lift {A} (x : exn + A) : steps R (lift x).
Proof. intros s s' r [= <- _]. done. Qed.

Lemma steps_gets {A} (f : S → A) : steps R (gets f).
Proof. intros s s' r [= <- _]. done. Qed.

Lemma steps_bind {A B} (m : ST S A) (f : A → ST S B) :
  steps R m → (∀ a, steps R (f a)) → steps R (m ≫= f).
Proof.
  intros Hm Hf s s' r [(e & Hs & _)|(s1 & a & Hs & Hk)]%bind_inv; [eauto|].
  etrans; [by eapply Hm | by eapply Hf].
Qed.

Lemma steps_try_except {A} (m : ST S A) (h : exn → ST S A) :
  steps R m → (∀ e, steps R (h e)) → steps R (try_except m h).
Proof.
  intros Hm Hh s s' r. unfold try_except.
  destruct (m s) as [s1 [e|a]] eqn:Hs; intros Hk.
  - etrans; [by eapply Hm | by eapply Hh].
  - simplify_eq. by eapply Hm.
Qed.

Lemma steps_for_each {A} (l : list A) (body : A → ST S unit) :
  (∀ x, x ∈ l → steps R (body x)) → steps R (for_each l body).
Proof.
  induction l as [|x l IH]; intros Hb; [apply steps_ret|].
  apply steps_bind; [apply Hb; left|].
  intros _. apply IH. intros y Hy. apply Hb. by right.
Qed.

End steps.

Section raises_only.
Context {S : Type} (P : exn → Prop).

Lemma raises_only_ret {A} (a : A) : raises_only (S:=S) P (mret a).
Proof. intros s s' e [=]. Qed.

Lemma raises_only_gets {A} (f : S → A) : raises_only P (gets f).
Proof. intros s s' e [=]. Qed.

Lemma raises_only_modify (f : S → S) : raises_only P (modify f).
Proof. intros s s' e [=]. Qed.

Lemma raises_only_raise {A} (e : exn) : P e → raises_only (S:=S) P (raise (A:=A) e).
Proof. intros He s s' e' [= _ <-]. done. Qed.

Lemma raises_only_bind {A B} (m : ST S A) (f : A → ST S B) :
  raises_only P m → (∀ a, raises_only P (f a)) → raises_only P (m ≫= f).
Proof.
  intros Hm Hf s s' e [(e' & Hs & ?)|(s1 & a & Hs & Hk)]%bind_inv.
  - simplify_eq. by eapply Hm.
  - by eapply Hf.
Qed.

Lemma raises_only_for_each {A} (l : list A) (body : A → ST S unit) :
  (∀ x, raises_only P (body x)) → raises_only P (for_each l body).
Proof.
  intros Hb. induction l as [|x l IH]; [apply raises_only_ret|].
  apply raises_only_bind; auto.
Qed.

End raises_only.

Lemma set_fs_same (s : state) : set_fs (λ _, fs s) s = s.
Proof. by destruct s. Qed.

Lemma on_fs_inv {A} (m : FS A) (s s' : state) r :
  on_fs m s = (s', r) → m (fs s) = (fs s', r) ∧ same_script_state s s'.
Proof.
  unfold on_fs. destruct (m (fs s)) as [m' r'] eqn:Hm.
  intros [= <- <-]. by destruct s.
Qed.

Lemma on_fs_eq {A} (m : FS A) (s : state) m' r :
  m (fs s) = (m', r) → on_fs m s = (set_fs (λ _, m') s, r).
Proof. unfold on_fs. by intros ->. Qed.

Lemma raises_only_on_fs {A} (P : exn → Prop) (m : FS A) :
  raises_only P m → raises_only P (on_fs m).
Proof. intros Hm s s' e [Hs _]%on_fs_inv. by eapply Hm. Qed.

End MonadFacts.

(** ** The statements of the loop, one by one *)

Section script_facts.
Import PurePath MonadFacts.
Variable crc32 : content → N.

Lemma ZipFile_fs (z : Path) (m : gmap Path node) :
  (zipfile.ZipFile z m).1 = m.
Proof. unfold zipfile.ZipFile. by repeat case_match. Qed.

Lemma on_fs_ZipFile (z : Path) (s : state) :
  on_fs (zipfile.ZipFile z) s = (s, (zipfile.ZipFile z (fs s)).2).
Proof.
  pose proof (ZipFile_fs z (fs s)) as H. unfold on_fs.
  destruct (zipfile.ZipFile z (fs s)) as [m r]. simpl in *. subst m.
  by rewrite set_fs_same.
Qed.

(** The [try] block, outcome by outcome. *)
Lemma try_block_unfold (z d : Path) (s : state) :
  try_block crc32 z d s =
  match (zipfile.ZipFile z (fs s)).2 with
  | inl e => (s, inl e)
  | inr zf =>
      match zipfile.testzip crc32 zf with
      | inl e => (s, inl e)
      | inr (Some bad_file) =>
          (skip_with WARNING
             ("Corrupted member '" +:+ bad_file +:+ "' inside " +:+ str z
              +:+ ". Skipping.") s, inr tt)
      | inr None =>
          match zipfile.extractall crc32 zf d (fs s) with
          | (m', inl e) => (set_fs (λ _, m') s, inl e)
          | (m', inr _) =>
              (set_extracted_count (extracted_count s + 1)
                 (add_log {| levelname := INFO;
                             message := "Extracted: " +:+ str z +:+ " -> "
                                        +:+ str d |}
                    (set_fs (λ _, m') s)), inr tt)
          end
      end
  end.
Proof.
  unfold try_block. rewrite bind_unfold, on_fs_ZipFile.
  destruct (zipfile.ZipFile z (fs s)).2 as [e|zf]; [done|].
  rewrite bind_unfold. unfold lift at 1.
  destruct (zipfile.testzip crc32 zf) as [e|[bad|]]; [done|done|].
  rewrite bind_unfold. unfold on_fs at 1.
  destruct (zipfile.extractall crc32 zf d (fs s)) as [m' [e|[]]]; done.
Qed.

(** Every clause that catches logs once and counts the archive as
    skipped; the loop goes on. *)
Lemma except_clauses_caught (z : Path) (e : exn) (s : state) :
  is_Exception e →
  except_clauses z e s =
  (skip_with (clause_level e) (clause_message z e) s, inr tt).
Proof. by destruct e. Qed.

Lemma loop_body_unfold (sub : bool) (z : Path) (s : state) :
  loop_body crc32 sub z s =
  match extract_dir_of sub z with
  | inl e => (s, inl e)
  | inr d =>
      match os.mkdir_parents_exist_ok d (fs s) with
      | (m1, inl e) => (set_fs (λ _, m1) s, inl e)
      | (m1, inr _) =>
          try_except (try_block crc32 z d) (except_clauses z)
            (set_fs (λ _, m1) s)
      end
  end.
Proof.
  unfold loop_body. rewrite bind_unfold. unfold lift at 1.
  destruct (extract_dir_of sub z) as [e|d]; [done|].
  rewrite bind_unfold. unfold on_fs at 1.
  by destruct (os.mkdir_parents_exist_ok d (fs s)) as [m1 [e|[]]].
Qed.

(** A pass that comes to its end has counted its archive exactly once. *)
Lemma loop_body_counts (sub : bool) (z : Path) (s s' : state) :
  loop_body crc32 sub z s = (s', inr tt) →
  extracted_count s' + skipped_count s'
  = extracted_count s + skipped_count s + 1.
Proof.
  rewrite loop_body_unfold.
  destruct (extract_dir_of sub z) as [e|d]; [done|].
  destruct (os.mkdir_parents_exist_ok d (fs s)) as [m1 [e|[]]]; [done|].
  unfold try_except. rewrite try_block_unfold. cbn [fs set_fs].
  destruct (zipfile.ZipFile z m1).2 as [e|zf].
  { destruct e; intros [= <-]; simpl; lia. }
  destruct (zipfile.testzip crc32 zf) as [e|[bad|]].
  { destruct e; intros [= <-]; simpl; lia. }
  { intros [= <-]; simpl; lia. }
  destruct (zipfile.extractall crc32 zf d m1) as [m' [e|[]]].
  { destruct e; intros [= <-]; simpl; lia. }
  intros [= <-]; simpl; lia.
Qed.

Lemma for_each_counts (sub : bool) (zs : list Path) (s s' : state) :
  for_each zs (loop_body crc32 sub) s = (s', inr tt) →
  extracted_count s' + skipped_count s'
  = extracted_count s + skipped_count s + length zs.
Proof.
  revert s. induction zs as [|z zs IH]; intros s.
  - intros [= <-]. simpl. lia.
  - simpl. intros [(e & _ & [=])|(s1 & [] & Hz & Hzs)]%bind_inv.
    apply loop_body_counts in Hz. apply IH in Hzs. lia.
Qed.

(** The loop prints nothing. *)
Lemma loop_body_stdout (sub : bool) (z : Path) (s s' : state) r :
  loop_body crc32 sub z s = (s', r) → stdout s' = stdout s.
Proof.
  rewrite loop_body_unfold.
  destruct (extract_dir_of sub z) as [e|d]; [by intros [= <- _]|].
  destruct (os.mkdir_parents_exist_ok d (fs s)) as [m1 [e|[]]];
    [by intros [= <- _]|].
  unfold try_except. rewrite try_block_unfold. cbn [fs set_fs].
  destruct (zipfile.ZipFile z m1).2 as [e|zf].
  { destruct e; by intros [= <- _]. }
  destruct (zipfile.testzip crc32 zf) as [e|[bad|]].
  { destruct e; by intros [= <- _]. }
  { by intros [= <- _]. }
  destruct (zipfile.extractall crc32 zf d m1) as [m' [e|[]]].
  { destruct e; by intros [= <- _]. }
  by intros [= <- _].
Qed.

Lemma for_each_stdout (sub : bool) (zs : list Path) (s s' : state) r :
  for_each zs (loop_body crc32 sub) s = (s', r) → stdout s' = stdout s.
Proof.
  revert s. induction zs as [|z zs IH]; intros s.
  - by intros [= <- _].
  - simpl. intros [(e & Hz & _)|(s1 & [] & Hz & Hzs)]%bind_inv.
    + by apply loop_body_stdout in Hz.
    + apply loop_body_stdout in Hz. apply IH in Hzs. congruence.
Qed.

(** A loop that comes to its end came to the end of every prefix. *)
Lemma for_each_prefix {S A} (l : list A) (body : A → ST S unit) (k : nat)
    (s s' : S) :
  for_each l body s = (s', inr tt) →
  ∃ sk, for_each (take k l) body s = (sk, inr tt).
Proof.
  rewrite <-(take_drop k l) at 1. rewrite for_each_app.
  destruct (for_each (take k l) body s) as [sk [e|[]]]; [done|eauto].
Qed.

Lemma main_unfold (base : Path) (sub : bool) (s : state) :
  main crc32 base sub s =
  if os.exists_ base (fs s) then
    match os.rglob_zip base (fs s) with
    | [] => (add_line ("No .zip files found under: " +:+ str base) s, inr tt)
    | zip_paths =>
        match for_each zip_paths (loop_body crc32 sub) (reset_counts s) with
        | (s1, inl e) => (s1, inl e)
        | (s1, inr _) => report (length zip_paths) s1
        end
    end
  else
    (add_line ("Error: base directory does not exist: " +:+ str base) s,
     inl (SystemExit 1)).
Proof.
  unfold main, report, mbind, ST_bind, gets, modify, mret, ST_ret. cbn beta.
  destruct (os.exists_ base (fs s)); [|done].
  cbn [negb]. destruct (os.rglob_zip base (fs s)) as [|z zs]; [done|].
  by destruct (for_each _ _ _) as [s1 [e|[]]].
Qed.

End script_facts.


(** ** Two runs, step by step *)

(** The archive of the specification, in subfolder mode: [/r/a] is made
    and receives [x.txt] and [y/z.txt]. *)
Example one_archive_subfolder_run :
  let s' := (main Sample.crc32 ["r"] true (Sample.boot Sample.one_archive)).1 in
  fs s' !! ["r"; "a"] = Some (Dir false)
  ∧ fs s' !! ["r"; "a"; "x.txt"]
    = Some (File false (Raw (Sample.bytes "hello")))
  ∧ fs s' !! ["r"; "a"; "y"; "z.txt"]
    = Some (File false (Raw (Sample.bytes "world")))
  ∧ log s' = [{| levelname := INFO;
                 message := "Extracted: /r/a.zip -> /r/a" |}]
  ∧ stdout s' = [""; "Scanned 1 .zip files."; "Successfully extracted: 1";
                 "Skipped / failed: 0"].
Proof. vm_compute. split_and!; reflexivity. Qed.

(** The same archive in flat mode: the members land next to it. *)
Example one_archive_flat_run :
  let s' := (main Sample.crc32 ["r"] false (Sample.boot Sample.one_archive)).1 in
  fs s' !! ["r"; "a"] = None
  ∧ fs s' !! ["r"; "x.txt"] = Some (File false (Raw (Sample.bytes "hello")))
  ∧ fs s' !! ["r"; "y"; "z.txt"]
    = Some (File false (Raw (Sample.bytes "world")))
  ∧ log s' = [{| levelname := INFO;
                 message := "Extracted: /r/a.zip -> /r" |}].
Proof. vm_compute. split_and!; reflexivity. Qed.

(** A damaged archive is skipped, the good one beside it is extracted. *)
Example good_and_damaged_run :
  let s' := (main Sample.crc32 ["r"] true
               (Sample.boot Sample.good_and_damaged)).1 in
  os.rglob_zip ["r"] Sample.good_and_damaged
  = [["r"; "b.zip"]; ["r"; "a.zip"]]
  ∧ fs s' !! ["r"; "b"; "fine.txt"] = None
  ∧ fs s' !! ["r"; "a"; "x.txt"]
    = Some (File false (Raw (Sample.bytes "hello")))
  ∧ log s' =
      [{| levelname := WARNING;
          message := "Corrupted member 'bad.txt' inside /r/b.zip. Skipping." |};
       {| levelname := INFO; message := "Extracted: /r/a.zip -> /r/a" |}]
  ∧ stdout s' = [""; "Scanned 2 .zip files."; "Successfully extracted: 1";
                 "Skipped / failed: 1"].
Proof. vm_compute. split_and!; reflexivity. Qed.

(** ** Missing root, empty scan *)

(** C3: when the root directory does not exist, [main] prints a message
    for the user and ends the process with exit status 1; the file system
    is left as it was (and so is the rest of the state). *)
Theorem main_missing_root (crc32 : content → N) (base : Path) (sub : bool)
    (s : state) :
  fs s !! base = None →
  ∃ s', main crc32 base sub s = (s', inl (SystemExit 1))
    ∧ exit_status (inl (SystemExit 1)) = 1%Z
    ∧ exit_status (inl (SystemExit 1)) ≠ 0%Z
    ∧ s' = add_line ("Error: base directory does not exist: "
                     +:+ PurePath.str base) s
    ∧ fs s' = fs s.
Proof.
  intros Hroot. eexists. rewrite main_unfold. unfold os.exists_.
  rewrite Hroot, bool_decide_eq_false_2 by (by intros [? [=]]).
  done.
Qed.

Lemma main_missing_root_witness :
  fs (Sample.boot (Sample.tree [])) !! ["nowhere"] = None
  ∧ ∃ s', main Sample.crc32 ["nowhere"] true (Sample.boot (Sample.tree []))
          = (s', inl (SystemExit 1))
    ∧ exit_status (inl (SystemExit 1)) = 1%Z
    ∧ exit_status (inl (SystemExit 1)) ≠ 0%Z
    ∧ s' = add_line ("Error: base directory does not exist: "
                     +:+ PurePath.str ["nowhere"])
             (Sample.boot (Sample.tree []))
    ∧ fs s' = fs (Sample.boot (Sample.tree [])).
Proof.
  split; [reflexivity|].
  apply (main_missing_root Sample.crc32 ["nowhere"] true
           (Sample.boot (Sample.tree []))).
  reflexivity.
Defined.

(** C4: when the root exists and no path under it matches [*.zip],
    [main] prints one informational line and returns, so the process
    ends with exit status 0; the file system is left as it was. *)
Theorem main_no_archives (crc32 : content → N) (base : Path) (sub : bool)
    (s : state) :
  is_Some (fs s !! base) →
  os.rglob_zip base (fs s) = [] →
  ∃ s', main crc32 base sub s = (s', inr tt)
    ∧ exit_status (inr tt) = 0%Z
    ∧ s' = add_line ("No .zip files found under: " +:+ PurePath.str base) s
    ∧ fs s' = fs s.
Proof.
  intros Hroot Hnone. eexists. rewrite main_unfold. unfold os.exists_.
  rewrite bool_decide_eq_true_2, Hnone by done. done.
Qed.

Lemma main_no_archives_witness :
  is_Some (fs (Sample.boot (Sample.tree [])) !! ["r"])
  ∧ os.rglob_zip ["r"] (fs (Sample.boot (Sample.tree []))) = []
  ∧ ∃ s', main Sample.crc32 ["r"] true (Sample.boot (Sample.tree []))
          = (s', inr tt)
    ∧ exit_status (inr tt) = 0%Z
    ∧ s' = add_line ("No .zip files found under: " +:+ PurePath.str ["r"])
             (Sample.boot (Sample.tree []))
    ∧ fs s' = fs (Sample.boot (Sample.tree [])).
Proof.
  split; [by eexists|]. split; [reflexivity|].
  apply (main_no_archives Sample.crc32 ["r"] true
           (Sample.boot (Sample.tree []))).
  - by eexists.
  - reflexivity.
Defined.

(** ** The tally *)

(** The claim that [total = extracted + skipped] after each archive does
    not hold: [total] is fixed before the loop (line 27), so with two good
    archives the counters add up to 1 after the first, while [total] is 2. *)
Lemma tally_after_first_archive_counterexample :
  let zip_paths := os.rglob_zip ["r"] Sample.two_archives in
  let total := length zip_paths in
  ∃ sk, for_each (take 1 zip_paths) (loop_body Sample.crc32 true)
          (reset_counts (Sample.boot Sample.two_archives)) = (sk, inr tt)
    ∧ total ≠ extracted_count sk + skipped_count sk.
Proof.
  intros zip_paths total.
  exists (for_each (take 1 zip_paths) (loop_body Sample.crc32 true)
            (reset_counts (Sample.boot Sample.two_archives))).1.
  split; [vm_compute; reflexivity|]. vm_compute. discriminate.
Qed.

(** C1 (as amended): after a completed run that found archives, the three
    totals printed satisfy scanned = extracted + skipped; and at every point
    of the loop, once [k] archives have been processed, extracted + skipped
    is [k] (which is [total] only when the last archive is done). *)
Theorem tally_after_each_archive (crc32 : content → N) (base : Path)
    (sub : bool) (s s' : state) :
  main crc32 base sub s = (s', inr tt) →
  let zip_paths := os.rglob_zip base (fs s) in
  let total := length zip_paths in
  (zip_paths ≠ [] →
     total = extracted_count s' + skipped_count s'
     ∧ stdout s' =
         stdout s ++
         [""; "Scanned " +:+ pretty total +:+ " .zip files.";
          "Successfully extracted: " +:+ pretty (extracted_count s');
          "Skipped / failed: " +:+ pretty (skipped_count s')])
  ∧ ∀ k, k ≤ total →
      ∃ sk, for_each (take k zip_paths) (loop_body crc32 sub) (reset_counts s)
            = (sk, inr tt)
        ∧ extracted_count sk + skipped_count sk = k.
Proof.
  intros Hmain. cbv zeta. rewrite main_unfold in Hmain.
  destruct (os.exists_ base (fs s)); [|done].
  destruct (os.rglob_zip base (fs s)) as [|z zs] eqn:Hzs.
  { split; [done|]. intros k Hk. exists (reset_counts s).
    simpl in Hk. by replace k with 0 by lia. }
  cbv zeta in Hmain. rewrite <-Hzs in *. clear Hzs.
  destruct (for_each _ _ _) as [s1 [e|[]]] eqn:Hloop; [done|].
  split.
  - intros _. pose proof (for_each_stdout _ _ _ _ _ _ Hloop) as Hout.
    apply for_each_counts in Hloop.
    unfold report, mbind, ST_bind, print, gets, modify in Hmain.
    simplify_eq. cbn in *. split; [lia|].
    by rewrite Hout, <-!app_assoc.
  - intros k Hk.
    destruct (for_each_prefix _ _ k _ _ Hloop) as [sk Hsk]. exists sk.
    split; [done|]. apply for_each_counts in Hsk.
    rewrite length_take in Hsk. cbn in Hsk. lia.
Qed.

Lemma tally_after_each_archive_witness :
  let s := Sample.boot Sample.two_archives in
  let s' := (main Sample.crc32 ["r"] true s).1 in
  main Sample.crc32 ["r"] true s = (s', inr tt)
  ∧ let zip_paths := os.rglob_zip ["r"] (fs s) in
    let total := length zip_paths in
    (zip_paths ≠ [] →
       total = extracted_count s' + skipped_count s'
       ∧ stdout s' =
           stdout s ++
           [""; "Scanned " +:+ pretty total +:+ " .zip files.";
            "Successfully extracted: " +:+ pretty (extracted_count s');
            "Skipped / failed: " +:+ pretty (skipped_count s')])
    ∧ ∀ k, k ≤ total →
        ∃ sk, for_each (take k zip_paths) (loop_body Sample.crc32 true)
                (reset_counts s) = (sk, inr tt)
          ∧ extracted_count sk + skipped_count sk = k.
Proof.
  intros s s'. split; [vm_compute; reflexivity|].
  apply (tally_after_each_archive Sample.crc32 ["r"] true s s').
  vm_compute; reflexivity.
Defined.

(** ** How the file system changes *)

Module FsFacts.
Import PurePath MonadFacts.

#[export] Instance same_shape_equiv : Equivalence same_shape.
Proof.
  split.
  - by intros [].
  - intros [] []; simpl; congruence.
  - intros [] [] []; simpl; try done; congruence.
Qed.

Lemma same_shape_Dir (n : node) (l : bool) :
  same_shape (Dir l) n → n = Dir l.
Proof. destruct n; simpl; [done|]. by intros ->. Qed.

Lemma same_shape_File (n : node) (l : bool) (c : content) :
  same_shape (File l c) n → ∃ c', n = File l c'.
Proof. destruct n; simpl; [|done]. intros ->. eauto. Qed.

Lemma grows_lookup (m m' : gmap Path node) (q : Path) (n : node) :
  grows m m' → m !! q = Some n → ∃ n', m' !! q = Some n' ∧ same_shape n n'.
Proof. intros H Hq. specialize (H q). by rewrite Hq in H. Qed.

Lemma grows_Dir (m m' : gmap Path node) (q : Path) (l : bool) :
  grows m m' → m !! q = Some (Dir l) → m' !! q = Some (Dir l).
Proof.
  intros H Hq. destruct (grows_lookup _ _ _ _ H Hq) as (n' & -> & Hn).
  by rewrite (same_shape_Dir _ _ Hn).
Qed.

Lemma grows_File (m m' : gmap Path node) (q : Path) (l : bool) (c : content) :
  grows m m' → m !! q = Some (File l c) → ∃ c', m' !! q = Some (File l c').
Proof.
  intros H Hq. destruct (grows_lookup _ _ _ _ H Hq) as (n' & -> & Hn).
  destruct (same_shape_File _ _ _ Hn) as [c' ->]. eauto.
Qed.

Lemma grows_blocked (m m' : gmap Path node) (q : Path) :
  grows m m' → blocked m q → blocked m' q.
Proof.
  intros H [Hq Hp]. split.
  - specialize (H q). rewrite Hq in H. by apply H.
  - destruct (m !! parent q) as [n|] eqn:Hn.
    + destruct (grows_lookup _ _ _ _ H Hn) as (n' & -> & Hs).
      destruct n as [l c|[]], n' as [l' c'|[]]; simpl in *; done.
    + assert (blocked m []) as Hroot.
      { rewrite Hp in Hn. split; [done|]. simpl. by rewrite Hn. }
      specialize (H []). rewrite Hp in Hn. rewrite Hn in H.
      by rewrite Hp, (H Hroot).
Qed.

#[export] Instance grows_preorder : PreOrder grows.
Proof.
  split.
  - intros m q. destruct (m !! q) as [n|] eqn:Hq; [by exists n|].
    by intros [? _].
  - intros m1 m2 m3 H12 H23 q. destruct (m1 !! q) as [n|] eqn:Hq.
    + destruct (grows_lookup _ _ _ _ H12 Hq) as (n2 & Hq2 & Hs2).
      destruct (grows_lookup _ _ _ _ H23 Hq2) as (n3 & Hq3 & Hs3).
      exists n3. split; [done|]. by etrans.
    + intros Hb. apply (grows_blocked _ _ _ H12) in Hb.
      specialize (H23 q). destruct Hb as [Hq2 Hp2]. rewrite Hq2 in H23.
      by apply H23.
Qed.

Lemma grows_insert_new (m : gmap Path node) (q : Path) (n : node) :
  m !! q = None → m !! parent q = Some (Dir false) → grows m (<[q:=n]> m).
Proof.
  intros Hq Hp k. destruct (decide (k = q)) as [->|Hne].
  - rewrite Hq. intros [_ Hb]. by rewrite Hp in Hb.
  - rewrite lookup_insert_ne by done.
    destruct (m !! k) as [nk|]; [by exists nk|done].
Qed.

Lemma grows_insert_same (m : gmap Path node) (q : Path) (n n' : node) :
  m !! q = Some n → same_shape n n' → grows m (<[q:=n']> m).
Proof.
  intros Hq Hs k. destruct (decide (k = q)) as [->|Hne].
  - rewrite Hq, lookup_insert_eq. eauto.
  - rewrite lookup_insert_ne by done.
    destruct (m !! k) as [nk|]; [by exists nk|done].
Qed.

Lemma ensure_dir_grows (q : Path) (e : exn) : steps grows (os.ensure_dir q e).
Proof.
  intros m m' r. unfold os.ensure_dir.
  destruct (m !! q) as [[]|] eqn:Hq; [by intros [= <- _]..|].
  destruct (m !! parent q) as [[|[]]|] eqn:Hp; try by intros [= <- _].
  intros [= <- _]. by apply grows_insert_new.
Qed.

Lemma write_file_grows (q : Path) (c : content) :
  steps grows (os.write_file q c).
Proof.
  intros m m' r. unfold os.write_file.
  destruct (m !! q) as [[[] ?|]|] eqn:Hq; try by intros [= <- _].
  - intros [= <- _]. by eapply grows_insert_same.
  - destruct (m !! parent q) as [[|[]]|] eqn:Hp; try by intros [= <- _].
    intros [= <- _]. by apply grows_insert_new.
Qed.

Lemma makedirs_from_grows (pre : Path) (rest : list string)
    (on_file : Path → list string → exn) :
  steps grows (os.makedirs_from pre rest on_file).
Proof.
  revert pre. induction rest as [|c rest IH]; intros pre; simpl.
  - apply ensure_dir_grows.
  - apply steps_bind; [apply _|apply ensure_dir_grows|auto].
Qed.

(** A successful walk ends on a directory. *)
Lemma ensure_dir_ok (q : Path) (e : exn) (m m' : gmap Path node) :
  os.ensure_dir q e m = (m', inr tt) → ∃ l, m' !! q = Some (Dir l).
Proof.
  unfold os.ensure_dir.
  destruct (m !! q) as [[]|] eqn:Hq; [done|intros [= <-]; eauto|].
  destruct (m !! parent q) as [[|[]]|]; try done.
  intros [= <-]. exists false. apply lookup_insert_eq.
Qed.

Lemma makedirs_from_ok (pre : Path) (rest : list string)
    (on_file : Path → list string → exn) (m m' : gmap Path node) :
  os.makedirs_from pre rest on_file m = (m', inr tt) →
  ∃ l, m' !! (pre ++ rest) = Some (Dir l).
Proof.
  revert pre m. induction rest as [|c rest IH]; intros pre m; simpl.
  - rewrite app_nil_r. apply ensure_dir_ok.
  - intros [(e & _ & [=])|(m1 & [] & _ & Hk)]%bind_inv.
    apply IH in Hk. by rewrite <-app_assoc in Hk.
Qed.

Lemma ZipFile_grows (z : Path) : steps grows (zipfile.ZipFile z).
Proof.
  intros m m' r H. pose proof (ZipFile_fs z m) as Hm.
  rewrite H in Hm. simpl in Hm. by subst.
Qed.

Section crc.
Variable crc32 : content → N.

Lemma extract_member_grows (d : Path) (x : member) :
  steps grows (zipfile.extract_member crc32 d x).
Proof.
  destruct x as [zi data]. unfold zipfile.extract_member.
  apply steps_bind; [apply _|apply makedirs_from_grows|intros _].
  destruct (zipfile.is_dir zi); [apply ensure_dir_grows|].
  apply steps_bind; [apply _| |intros _].
  { destruct (encrypted zi); [apply steps_raise|apply steps_ret]; apply _. }
  apply steps_bind; [apply _|apply write_file_grows|intros _].
  destruct (_ =? _)%N; [apply steps_ret|apply steps_raise]; apply _.
Qed.

Lemma extractall_grows (zf : list member) (d : Path) :
  steps grows (zipfile.extractall crc32 zf d).
Proof.
  apply steps_for_each; [apply _|]. intros x _. apply extract_member_grows.
Qed.

End crc.

End FsFacts.

(** ** The script only ever grows the file system *)

#[global] Instance fs_grows_preorder : PreOrder fs_grows.
Proof.
  split.
  - intros s. unfold fs_grows. apply FsFacts.grows_preorder.
  - intros s1 s2 s3. unfold fs_grows. apply FsFacts.grows_preorder.
Qed.

Section script_grows.
Import PurePath MonadFacts FsFacts.
Variable crc32 : content → N.

Lemma on_fs_grows {A} (m : FS A) : steps grows m → steps fs_grows (on_fs m).
Proof. intros Hm s s' r [Hs _]%on_fs_inv. by eapply Hm. Qed.

Lemma modify_grows (f : state → state) :
  (∀ s, fs (f s) = fs s) → steps fs_grows (modify f).
Proof. intros Hf s s' r [= <- _]. unfold fs_grows. by rewrite Hf. Qed.

Lemma emit_grows (l : level) (msg : string) :
  steps fs_grows (logging.emit l msg).
Proof. by apply modify_grows. Qed.

Lemma try_block_grows (z d : Path) : steps fs_grows (try_block crc32 z d).
Proof.
  unfold try_block.
  apply (steps_bind fs_grows); [apply on_fs_grows, ZipFile_grows|intros zf].
  apply (steps_bind fs_grows); [apply (steps_lift fs_grows)|intros [bad|]].
  - apply (steps_bind fs_grows); [apply emit_grows|intros _].
    by apply modify_grows.
  - apply (steps_bind fs_grows); [apply on_fs_grows, extractall_grows|intros _].
    apply (steps_bind fs_grows); [apply emit_grows|intros _].
    by apply modify_grows.
Qed.

Lemma except_clauses_grows (z : Path) (e : exn) :
  steps fs_grows (except_clauses z e).
Proof.
  destruct e; simpl; try apply (steps_raise fs_grows).
  all: apply (steps_bind fs_grows); [apply emit_grows|intros _].
  all: by apply modify_grows.
Qed.

Lemma loop_body_grows (sub : bool) (z : Path) :
  steps fs_grows (loop_body crc32 sub z).
Proof.
  unfold loop_body.
  apply (steps_bind fs_grows); [apply (steps_lift fs_grows)|intros d].
  apply (steps_bind fs_grows); [ |intros _].
  { apply on_fs_grows, makedirs_from_grows. }
  apply (steps_try_except fs_grows);
    [apply try_block_grows|apply except_clauses_grows].
Qed.

Lemma main_grows (base : Path) (sub : bool) :
  steps fs_grows (main crc32 base sub).
Proof.
  intros s s' r. rewrite main_unfold.
  destruct (os.exists_ base (fs s));
    [|intros [= <- _]; unfold fs_grows; reflexivity].
  destruct (os.rglob_zip base (fs s)) as [|z zs] eqn:Hzs;
    [intros [= <- _]; unfold fs_grows; reflexivity|].
  cbv zeta. rewrite <-Hzs. clear Hzs.
  destruct (for_each _ _ _) as [s1 [e|[]]] eqn:Hloop.
  - intros [= <- _].
    eapply (steps_for_each fs_grows) in Hloop;
      [done|intros; apply loop_body_grows].
  - intros Hrep.
    eapply (steps_for_each fs_grows) in Hloop;
      [|intros; apply loop_body_grows].
    unfold report, mbind, ST_bind, print, gets, modify in Hrep.
    simplify_eq. done.
Qed.

End script_grows.

(** C10: the destination directory is created before the archive is
    opened or validated: a pass of the loop first runs [mkdir] on the file
    system it was given, which leaves the destination a directory, and only
    then enters the [try] block; and whatever becomes of the archive there
    (extracted, or skipped as corrupt, malformed or otherwise), the
    destination is still a directory when the pass ends. *)
Theorem extract_dir_made_before_open (crc32 : content → N) (sub : bool)
    (zpath : Path) (s s' : state) :
  loop_body crc32 sub zpath s = (s', inr tt) →
  ∃ (d : Path) (m1 : gmap Path node) (l : bool),
    extract_dir_of sub zpath = inr d
    ∧ os.mkdir_parents_exist_ok d (fs s) = (m1, inr tt)
    ∧ m1 !! d = Some (Dir l)
    ∧ try_except (try_block crc32 zpath d) (except_clauses zpath)
        (set_fs (λ _, m1) s) = (s', inr tt)
    ∧ fs s' !! d = Some (Dir l).
Proof.
  rewrite loop_body_unfold.
  destruct (extract_dir_of sub zpath) as [e|d]; [done|].
  destruct (os.mkdir_parents_exist_ok d (fs s)) as [m1 [e|[]]] eqn:Hmk;
    [done|].
  intros Htry. destruct (FsFacts.makedirs_from_ok _ _ _ _ _ Hmk) as [l Hd].
  exists d, m1, l. split_and!; try done.
  eapply FsFacts.grows_Dir; [|exact Hd].
  change m1 with (fs (set_fs (λ _, m1) s)).
  eapply (MonadFacts.steps_try_except fs_grows); [| |exact Htry].
  - apply try_block_grows.
  - apply except_clauses_grows.
Qed.

Lemma extract_dir_made_before_open_witness :
  let s := Sample.boot Sample.good_and_damaged in
  let s' := (loop_body Sample.crc32 true ["r"; "b.zip"] s).1 in
  loop_body Sample.crc32 true ["r"; "b.zip"] s = (s', inr tt)
  ∧ ∃ (d : Path) (m1 : gmap Path node) (l : bool),
      extract_dir_of true ["r"; "b.zip"] = inr d
      ∧ os.mkdir_parents_exist_ok d (fs s) = (m1, inr tt)
      ∧ m1 !! d = Some (Dir l)
      ∧ try_except (try_block Sample.crc32 ["r"; "b.zip"] d)
          (except_clauses ["r"; "b.zip"]) (set_fs (λ _, m1) s) = (s', inr tt)
      ∧ fs s' !! d = Some (Dir l).
Proof.
  intros s s'. split; [vm_compute; reflexivity|].
  apply (extract_dir_made_before_open Sample.crc32 true ["r"; "b.zip"] s s').
  vm_compute; reflexivity.
Defined.

(** ** What the [try] block can raise, and what [mkdir] can change *)

Module RaiseFacts.
Import PurePath MonadFacts.

Lemma ensure_dir_raises (q : Path) (e : exn) :
  is_Exception e → raises_only is_Exception (os.ensure_dir q e).
Proof.
  intros He m m' e'. unfold os.ensure_dir.
  repeat case_match; intros [= _ <-]; done.
Qed.

Lemma makedirs_from_raises (pre : Path) (rest : list string)
    (on_file : Path → list string → exn) :
  (∀ q k, is_Exception (on_file q k)) →
  raises_only is_Exception (os.makedirs_from pre rest on_file).
Proof.
  intros Hf. revert pre. induction rest as [|c rest IH]; intros pre; simpl.
  - by apply ensure_dir_raises.
  - apply raises_only_bind; [by apply ensure_dir_raises|auto].
Qed.

Lemma write_file_raises (q : Path) (c : content) :
  raises_only is_Exception (os.write_file q c).
Proof.
  intros m m' e'. unfold os.write_file.
  repeat case_match; intros [= _ <-]; done.
Qed.

Lemma ZipFile_raises (z : Path) : raises_only is_Exception (zipfile.ZipFile z).
Proof.
  intros m m' e'. unfold zipfile.ZipFile.
  repeat case_match; intros [= _ <-]; done.
Qed.

Section crc.
Variable crc32 : content → N.

Lemma read_all_raises (entries : list member) (e : exn) :
  zipfile.read_all crc32 entries = inl e → is_Exception e.
Proof.
  induction entries as [|[zi data] entries IH]; simpl; [done|].
  repeat case_match; try done. by intros [= <-].
Qed.

Lemma testzip_raises (zf : list member) (e : exn) :
  zipfile.testzip crc32 zf = inl e → is_Exception e.
Proof. apply read_all_raises. Qed.

Lemma extract_member_raises (d : Path) (x : member) :
  raises_only is_Exception (zipfile.extract_member crc32 d x).
Proof.
  destruct x as [zi data]. unfold zipfile.extract_member.
  apply raises_only_bind;
    [apply makedirs_from_raises; by intros q []|intros _].
  destruct (zipfile.is_dir zi); [by apply ensure_dir_raises|].
  apply raises_only_bind; [|intros _].
  { destruct (encrypted zi);
      [by apply raises_only_raise|apply raises_only_ret]. }
  apply raises_only_bind; [apply write_file_raises|intros _].
  destruct (_ =? _)%N; [apply raises_only_ret|by apply raises_only_raise].
Qed.

Lemma extractall_raises (zf : list member) (d : Path) :
  raises_only is_Exception (zipfile.extractall crc32 zf d).
Proof. apply raises_only_for_each. intros x. apply extract_member_raises. Qed.

(** Whatever the [try] block raises, one of the clauses catches it. *)
Lemma try_block_raises (z d : Path) :
  raises_only is_Exception (try_block crc32 z d).
Proof.
  intros s s' e. rewrite try_block_unfold.
  destruct (zipfile.ZipFile z (fs s)) as [m r] eqn:Hz. simpl.
  destruct r as [e'|zf].
  { intros [= _ <-]. by eapply ZipFile_raises. }
  destruct (zipfile.testzip crc32 zf) as [e'|[bad|]] eqn:Ht.
  { intros [= _ <-]. by eapply testzip_raises. }
  { done. }
  destruct (zipfile.extractall crc32 zf d (fs s)) as [m' [e'|[]]] eqn:Hx;
    [|done].
  intros [= _ <-]. by eapply extractall_raises.
Qed.

(** A failing [try] block has logged and counted nothing yet. *)
Lemma try_block_failed (z d : Path) (s s' : state) (e : exn) :
  try_block crc32 z d s = (s', inl e) → same_script_state s s'.
Proof.
  rewrite try_block_unfold.
  destruct (zipfile.ZipFile z (fs s)).2 as [e'|zf]; [by intros [= <- _]|].
  destruct (zipfile.testzip crc32 zf) as [e'|[bad|]];
    [by intros [= <- _]|done|].
  destruct (zipfile.extractall crc32 zf d (fs s)) as [m' [e'|[]]]; [|done].
  by intros [= <- _].
Qed.

End crc.

#[export] Instance adds_dirs_preorder : PreOrder adds_dirs.
Proof.
  split.
  - intros m q. by left.
  - intros m1 m2 m3 H12 H23 q.
    destruct (H12 q) as [E12|[E1 E2]], (H23 q) as [E23|[E2' E3]].
    + left. congruence.
    + right. split; congruence.
    + right. split; congruence.
    + congruence.
Qed.

Lemma ensure_dir_adds (q : Path) (e : exn) : steps adds_dirs (os.ensure_dir q e).
Proof.
  intros m m' r. unfold os.ensure_dir.
  repeat case_match; intros [= <- _]; try reflexivity.
  intros k. destruct (decide (k = q)) as [->|].
  - right. by rewrite lookup_insert_eq.
  - left. by rewrite lookup_insert_ne.
Qed.

Lemma makedirs_from_adds (pre : Path) (rest : list string)
    (on_file : Path → list string → exn) :
  steps adds_dirs (os.makedirs_from pre rest on_file).
Proof.
  revert pre. induction rest as [|c rest IH]; intros pre; simpl.
  - apply ensure_dir_adds.
  - apply (steps_bind adds_dirs); [apply ensure_dir_adds|auto].
Qed.

Lemma adds_dirs_File (m m' : gmap Path node) (q : Path) (l : bool)
    (c : content) :
  adds_dirs m m' → m !! q = Some (File l c) → m' !! q = Some (File l c).
Proof. intros H Hq. destruct (H q) as [->|[? _]]; congruence. Qed.

Lemma adds_dirs_File_inv (m m' : gmap Path node) (q : Path) (l : bool)
    (c : content) :
  adds_dirs m m' → m' !! q = Some (File l c) → m !! q = Some (File l c).
Proof. intros H Hq. destruct (H q) as [<-|[_ ?]]; congruence. Qed.

End RaiseFacts.

(** ** Validation *)

Module ZipFacts.

Lemma filter_none {A} (P : A → Prop) `{!∀ x, Decision (P x)} (l : list A) :
  (∀ y, y ∈ l → ¬ P y) → filter P l = [].
Proof.
  induction l as [|a l IH]; intros Hno; [done|].
  rewrite filter_cons_False by (apply Hno; by left).
  apply IH. intros y Hy. apply Hno. by right.
Qed.

(** A name of the directory gives an entry of that name. *)
Lemma getinfo_Some (zf : list member) (x : member) :
  x ∈ zf →
  ∃ y, zipfile.getinfo zf (zipfile.member_name x) = Some y
       ∧ y ∈ zf ∧ zipfile.member_name y = zipfile.member_name x.
Proof.
  intros Hx. unfold zipfile.getinfo.
  destruct (filter _ zf) as [|y0 l] eqn:Hf using rev_ind.
  - assert (x ∈ filter (λ y, zipfile.member_name y = zipfile.member_name x)
                  zf) as Hin by (by apply list_elem_of_filter).
    rewrite Hf in Hin. by apply elem_of_nil in Hin.
  - clear IHl. exists y0. rewrite last_snoc. split; [done|].
    assert (y0 ∈ filter (λ y, zipfile.member_name y = zipfile.member_name x)
                   zf) as Hin.
    { rewrite Hf. apply elem_of_app. right. by left. }
    apply list_elem_of_filter in Hin as [? ?]. done.
Qed.

(** So no entry is lost: [zipfile] reads as many entries as there are. *)
Lemma length_entries_by_name (zf : list member) :
  length (zipfile.entries_by_name zf) = length zf.
Proof.
  unfold zipfile.entries_by_name, zipfile.namelist.
  assert (∀ l : list member, (∀ x, x ∈ l → x ∈ zf) →
               length (omap (zipfile.getinfo zf) (zipfile.member_name <$> l))
               = length l) as H.
  { induction l as [|x l IH]; intros Hl; [done|].
    cbn [fmap list_fmap omap list_omap].
    destruct (getinfo_Some zf x) as (y & -> & _); [apply Hl; by left|].
    simpl. f_equal. apply IH. intros x' Hx'. apply Hl. by right. }
  by apply H.
Qed.

(** When no two entries have the same name, the entry a name gives is the
    entry itself. *)
Lemma entries_by_name_NoDup (zf : list member) :
  NoDup (zipfile.namelist zf) → zipfile.entries_by_name zf = zf.
Proof.
  intros Hnd. unfold zipfile.entries_by_name.
  assert (∀ x, x ∈ zf → zipfile.getinfo zf (zipfile.member_name x) = Some x)
    as Hget.
  { intros x Hx. unfold zipfile.getinfo.
    assert (filter (λ y, zipfile.member_name y = zipfile.member_name x) zf
            = [x]) as ->; [|done].
    revert Hnd x Hx. unfold zipfile.namelist.
    induction zf as [|a zf IH]; intros Hnd x Hx; [by apply elem_of_nil in Hx|].
    apply NoDup_cons in Hnd as [Ha Hnd].
    apply elem_of_cons in Hx as [->|Hx].
    - rewrite filter_cons_True by done. f_equal.
      apply filter_none. intros y Hy E.
      apply Ha. rewrite <-E. by apply list_elem_of_fmap_2.
    - rewrite filter_cons_False; [by apply IH|].
      intros E. apply Ha. rewrite E. by apply list_elem_of_fmap_2. }
  unfold zipfile.namelist.
  assert (∀ l : list member, (∀ x, x ∈ l → x ∈ zf) →
               omap (zipfile.getinfo zf) (zipfile.member_name <$> l) = l)
    as H.
  { induction l as [|x l IH]; intros Hl; [done|].
    cbn [fmap list_fmap omap list_omap].
    rewrite Hget by (apply Hl; by left). f_equal.
    apply IH. intros x' Hx'. apply Hl. by right. }
  by apply H.
Qed.

Lemma read_all_first_bad (crc32 : content → N) (before after : list member)
    (zi : ZipInfo) (data : content) :
  Forall (member_ok crc32) before →
  encrypted zi = false → crc32 data ≠ CRC zi →
  zipfile.read_all crc32 (before ++ Member zi data :: after)
  = inr (Some (filename zi)).
Proof.
  intros Hok Henc Hcrc. induction Hok as [|[zi' data'] before [He Hc] _ IH].
  - simpl. rewrite Henc. by destruct (N.eqb_spec (crc32 data) (CRC zi)).
  - simpl. by rewrite He, Hc, N.eqb_refl.
Qed.


End ZipFacts.

(** The claim that every archive holding a member with a wrong checksum
    gets the warning that names that member does not hold: when the archive
    file cannot be read, line 43 raises [PermissionError] before any member
    is looked at, and what is logged is the error of line 65.  (The same
    happens, with the warning of line 62, when an encrypted member comes
    before the damaged one: [testzip] raises on it.) *)
Lemma corrupt_member_unread_counterexample :
  let s := Sample.boot Sample.locked_damaged in
  let s' := (main Sample.crc32 ["r"] true s).1 in
  os.rglob_zip ["r"] (fs s) = [["r"; "b.zip"]]
  ∧ (∃ l zi data,
       fs s !! ["r"; "b.zip"] = Some (File l (Zip [Member zi data]))
       ∧ Sample.crc32 data ≠ CRC zi)
  ∧ log s' =
      [{| levelname := ERROR;
          message := "PermissionError extracting /r/b.zip: [Errno 13] "
                     +:+ "Permission denied: '/r/b.zip'. Skipping." |}].
Proof.
  intros s s'. split; [vm_compute; reflexivity|]. split.
  - eexists _, _, _. split; [vm_compute; reflexivity|]. vm_compute. discriminate.
  - vm_compute. reflexivity.
Qed.

(** An encrypted member in front of the damaged one: [testzip] raises
    on the first, and the line logged is the one of line 62. *)
Example encrypted_before_damaged_run :
  let s' := (main Sample.crc32 ["r"] true
               (Sample.boot Sample.encrypted_first)).1 in
  log s' =
    [{| levelname := WARNING;
        message := "RuntimeError with /r/f.zip: File 's.txt' is encrypted, "
                   +:+ "password required for extraction. Skipping." |}]
  ∧ skipped_count s' = 1
  ∧ extracted_count s' = 0.
Proof. vm_compute. split_and!; reflexivity. Qed.

(** A damaged entry that a later entry of the same name hides: every
    name gives the later entry, so the archive passes validation and is
    extracted, with the later entry's data. *)
Example shadowed_entry_run :
  let s' := (main Sample.crc32 ["r"] true (Sample.boot Sample.shadowed)).1 in
  log s' = [{| levelname := INFO;
               message := "Extracted: /r/s.zip -> /r/s" |}]
  ∧ extracted_count s' = 1
  ∧ skipped_count s' = 0
  ∧ fs s' !! ["r"; "s"; "dup.txt"]
    = Some (File false (Raw (Sample.bytes "new"))).
Proof. vm_compute. split_and!; reflexivity. Qed.

(** C5 (as amended): for a discovered archive whose destination directory
    could be created, that can be opened, and in which the first entry to
    fail validation fails on its checksum: the pass logs one warning naming
    the archive and that entry, adds exactly one to the skipped counter,
    leaves the extracted counter alone, writes no file (all that changed on
    the file system is directories [mkdir] made), and the loop goes on with
    the archives that remain.  Validation reads the entries the way
    [zipfile] does, in directory order and each by its name, which gives
    the last entry of that name: every entry read before the failing one
    reads back fine, and the failing one is not encrypted. *)
Theorem corrupt_member_skips_archive (crc32 : content → N) (sub : bool)
    (zpath d : Path) (s : state) (m1 : gmap Path node)
    (zf before after : list member) (zi : ZipInfo) (data : content)
    (rest : list Path) :
  extract_dir_of sub zpath = inr d →
  os.mkdir_parents_exist_ok d (fs s) = (m1, inr tt) →
  fs s !! zpath = Some (File false (Zip zf)) →
  zipfile.entries_by_name zf = before ++ Member zi data :: after →
  Forall (member_ok crc32) before →
  encrypted zi = false →
  crc32 data ≠ CRC zi →
  let s' := skip_with WARNING
              ("Corrupted member '" +:+ filename zi +:+ "' inside "
               +:+ PurePath.str zpath +:+ ". Skipping.")
              (set_fs (λ _, m1) s) in
  loop_body crc32 sub zpath s = (s', inr tt)
  ∧ log s' = log s ++
      [{| levelname := WARNING;
          message := "Corrupted member '" +:+ filename zi +:+ "' inside "
                     +:+ PurePath.str zpath +:+ ". Skipping." |}]
  ∧ skipped_count s' = skipped_count s + 1
  ∧ extracted_count s' = extracted_count s
  ∧ adds_dirs (fs s) (fs s')
  ∧ (∀ p l c, fs s' !! p = Some (File l c) ↔ fs s !! p = Some (File l c))
  ∧ for_each (zpath :: rest) (loop_body crc32 sub) s
    = for_each rest (loop_body crc32 sub) s'.
Proof.
  intros Hd Hmk Hz Hread Hok Henc Hcrc s'.
  assert (adds_dirs (fs s) m1) as Hadds
    by (eapply RaiseFacts.makedirs_from_adds; exact Hmk).
  assert (loop_body crc32 sub zpath s = (s', inr tt)) as Hbody.
  { rewrite loop_body_unfold, Hd, Hmk. unfold try_except.
    rewrite try_block_unfold. cbn [fs set_fs].
    unfold zipfile.ZipFile.
    rewrite (RaiseFacts.adds_dirs_File _ _ _ _ _ Hadds Hz). cbn [snd].
    unfold zipfile.testzip.
    by rewrite Hread, ZipFacts.read_all_first_bad. }
  split_and!; try done.
  - intros p l c. split.
    + by apply RaiseFacts.adds_dirs_File_inv.
    + by apply RaiseFacts.adds_dirs_File.
  - by apply MonadFacts.for_each_cons_ok.
Qed.

Lemma corrupt_member_skips_archive_witness :
  let s := Sample.boot Sample.good_and_damaged in
  let zpath := ["r"; "b.zip"] in
  let d := ["r"; "b"] in
  let m1 := (os.mkdir_parents_exist_ok d (fs s)).1 in
  let before := [Sample.stored "fine.txt" (Raw (Sample.bytes "fine"))] in
  let after := [Sample.stored "late.txt" (Raw (Sample.bytes "late"))] in
  let zi := {| filename := "bad.txt";
               CRC := (Sample.crc32 (Raw (Sample.bytes "bad")) + 1)%N;
               encrypted := false |} in
  let data := Raw (Sample.bytes "bad") in
  let zf := before ++ Member zi data :: after in
  let rest := [["r"; "a.zip"]] in
  (extract_dir_of true zpath = inr d
   ∧ os.mkdir_parents_exist_ok d (fs s) = (m1, inr tt)
   ∧ fs s !! zpath = Some (File false (Zip zf))
   ∧ zipfile.entries_by_name zf = before ++ Member zi data :: after
   ∧ Forall (member_ok Sample.crc32) before
   ∧ encrypted zi = false
   ∧ Sample.crc32 data ≠ CRC zi)
  ∧ let s' := skip_with WARNING
                ("Corrupted member '" +:+ filename zi +:+ "' inside "
                 +:+ PurePath.str zpath +:+ ". Skipping.")
                (set_fs (λ _, m1) s) in
    loop_body Sample.crc32 true zpath s = (s', inr tt)
    ∧ log s' = log s ++
        [{| levelname := WARNING;
            message := "Corrupted member '" +:+ filename zi +:+ "' inside "
                       +:+ PurePath.str zpath +:+ ". Skipping." |}]
    ∧ skipped_count s' = skipped_count s + 1
    ∧ extracted_count s' = extracted_count s
    ∧ adds_dirs (fs s) (fs s')
    ∧ (∀ p l c, fs s' !! p = Some (File l c) ↔ fs s !! p = Some (File l c))
    ∧ for_each (zpath :: rest) (loop_body Sample.crc32 true) s
      = for_each rest (loop_body Sample.crc32 true) s'.
Proof.
  intros s zpath d m1 before after zi data zf rest.
  assert (Forall (member_ok Sample.crc32) before) as Hok.
  { repeat constructor. }
  assert (Sample.crc32 data ≠ CRC zi) as Hcrc.
  { vm_compute. discriminate. }
  assert (extract_dir_of true zpath = inr d) as Hd
    by (vm_compute; reflexivity).
  assert (os.mkdir_parents_exist_ok d (fs s) = (m1, inr tt)) as Hmk
    by (vm_compute; reflexivity).
  assert (fs s !! zpath = Some (File false (Zip zf)))
    as Hz by (vm_compute; reflexivity).
  assert (zipfile.entries_by_name zf = before ++ Member zi data :: after)
    as Hread by (vm_compute; reflexivity).
  assert (encrypted zi = false) as Henc by reflexivity.
  split;
    [exact (conj Hd (conj Hmk (conj Hz (conj Hread
              (conj Hok (conj Henc Hcrc))))))|].
  exact (corrupt_member_skips_archive Sample.crc32 true zpath d s m1
           zf before after zi data rest Hd Hmk Hz Hread Hok Henc Hcrc).
Defined.

(** ** Failures inside the [try] block *)

Lemma contains_archive_path (zpath : Path) (e : exn) :
  Str.contains (clause_message zpath e) (PurePath.str zpath) = true.
Proof.
  destruct e; cbv beta iota delta [clause_message];
    apply StrFacts.contains_app.
Qed.

Lemma contains_underlying_message (zpath : Path) (e : exn) :
  match e with
  | BadZipFile _ => True
  | _ => Str.contains (clause_message zpath e) (exn_str e) = true
  end.
Proof.
  destruct e; cbv beta iota delta [clause_message]; try done.
  all: rewrite <-(StrFacts.app_assoc (PurePath.str zpath));
    rewrite <-StrFacts.app_assoc; apply StrFacts.contains_app.
Qed.

(** The claim that every such log line carries the underlying message does
    not hold for a malformed archive: the clause of line 57 binds no
    exception, and the line it logs (line 58) has the archive path only. *)
Lemma bad_zip_log_counterexample :
  let s := Sample.boot Sample.not_a_zip in
  let zpath := ["r"; "c.zip"] in
  let e := BadZipFile "File is not a zip file" in
  ∃ s2 s',
    try_block Sample.crc32 zpath ["r"; "c"]
      (set_fs (λ _, (os.mkdir_parents_exist_ok ["r"; "c"] (fs s)).1) s)
    = (s2, inl e)
    ∧ loop_body Sample.crc32 true zpath s = (s', inr tt)
    ∧ log s' =
        [{| levelname := WARNING;
            message := "Bad/corrupted zip file (BadZipFile): /r/c.zip. "
                       +:+ "Skipping." |}]
    ∧ Forall (λ r, Str.contains (message r) (exn_str e) = false) (log s').
Proof.
  intros s zpath e. eexists _, (loop_body Sample.crc32 true zpath s).1.
  split_and!; [vm_compute; reflexivity..|].
  vm_compute. repeat constructor.
Qed.

(** C7 (as amended): when processing of a discovered archive fails inside
    the [try] block, raising [e], the pass logs exactly one line and adds
    one to the skipped counter, leaving the extracted counter alone; the
    line is at error level for a permission error and for any unexpected
    error, at warning level for a malformed archive ([BadZipFile]) and for a
    runtime error; it contains the archive path, and, except for the
    malformed-archive line, the message of [e]; and the loop goes on with
    the archives that remain. *)
Theorem failed_archive_logged_and_skipped (crc32 : content → N) (sub : bool)
    (zpath d : Path) (s s2 : state) (m1 : gmap Path node) (e : exn)
    (rest : list Path) :
  extract_dir_of sub zpath = inr d →
  os.mkdir_parents_exist_ok d (fs s) = (m1, inr tt) →
  try_block crc32 zpath d (set_fs (λ _, m1) s) = (s2, inl e) →
  let lvl := match e with
             | PermissionError _ => ERROR
             | BadZipFile _ | RuntimeError _ => WARNING
             | _ => ERROR
             end in
  ∃ (msg : string) (s' : state),
    loop_body crc32 sub zpath s = (s', inr tt)
    ∧ log s' = log s ++ [{| levelname := lvl; message := msg |}]
    ∧ skipped_count s' = skipped_count s + 1
    ∧ extracted_count s' = extracted_count s
    ∧ Str.contains msg (PurePath.str zpath) = true
    ∧ match e with
      | BadZipFile _ => msg = "Bad/corrupted zip file (BadZipFile): "
                              +:+ PurePath.str zpath +:+ ". Skipping."
      | _ => Str.contains msg (exn_str e) = true
      end
    ∧ for_each (zpath :: rest) (loop_body crc32 sub) s
      = for_each rest (loop_body crc32 sub) s'.
Proof.
  intros Hd Hmk Htry lvl.
  pose proof (RaiseFacts.try_block_raises _ _ _ _ _ _ Htry) as Hexc.
  destruct (RaiseFacts.try_block_failed _ _ _ _ _ _ Htry)
    as (Hlog & _ & Hext & Hskip).
  assert (loop_body crc32 sub zpath s
          = (skip_with (clause_level e) (clause_message zpath e) s2, inr tt))
    as Hbody.
  { rewrite loop_body_unfold, Hd, Hmk. unfold try_except.
    rewrite Htry. by apply except_clauses_caught. }
  exists (clause_message zpath e), (skip_with (clause_level e)
                                      (clause_message zpath e) s2).
  split_and!.
  - done.
  - cbn. rewrite Hlog. cbn. by destruct e.
  - cbn. by rewrite Hskip.
  - cbn. by rewrite Hext.
  - apply contains_archive_path.
  - pose proof (contains_underlying_message zpath e). by destruct e.
  - by apply MonadFacts.for_each_cons_ok.
Qed.

Lemma failed_archive_logged_and_skipped_witness :
  let s := Sample.boot Sample.locked_damaged in
  let zpath := ["r"; "b.zip"] in
  let d := ["r"; "b"] in
  let m1 := (os.mkdir_parents_exist_ok d (fs s)).1 in
  let s2 := set_fs (λ _, m1) s in
  let e := os.EACCES zpath in
  (extract_dir_of true zpath = inr d
   ∧ os.mkdir_parents_exist_ok d (fs s) = (m1, inr tt)
   ∧ try_block Sample.crc32 zpath d (set_fs (λ _, m1) s) = (s2, inl e))
  ∧ ∃ (msg : string) (s' : state),
      loop_body Sample.crc32 true zpath s = (s', inr tt)
      ∧ log s' = log s ++ [{| levelname := ERROR; message := msg |}]
      ∧ skipped_count s' = skipped_count s + 1
      ∧ extracted_count s' = extracted_count s
      ∧ Str.contains msg (PurePath.str zpath) = true
      ∧ Str.contains msg (exn_str e) = true
      ∧ for_each [zpath] (loop_body Sample.crc32 true) s
        = for_each [] (loop_body Sample.crc32 true) s'.
Proof.
  intros s zpath d m1 s2 e.
  split; [split_and!; vm_compute; reflexivity|].
  apply (failed_archive_logged_and_skipped Sample.crc32 true zpath d s s2 m1
           e []); vm_compute; reflexivity.
Defined.

(** ** Two places where the script falls short of its own description *)

(** C2: creating the destination directory (line 40) happens before the
    [try] block opens (line 42), so a failure there is caught by no clause.
    With a regular file [b] next to [b.zip], [mkdir] raises
    [FileExistsError]; the exception leaves [main]: nothing is logged, no
    archive is counted as skipped, the summary is never printed, the
    archive [a.zip] that comes next in the same scan is never reached, and
    the process ends with status 1. *)
Theorem mkdir_failure_aborts_run :
  let s := Sample.boot Sample.name_taken in
  let '(s', r) := main Sample.crc32 ["r"] true s in
  os.rglob_zip ["r"] (fs s) = [["r"; "b.zip"]; ["r"; "a.zip"]]
  ∧ extract_dir_of true ["r"; "b.zip"] = inr ["r"; "b"]
  ∧ r = inl (FileExistsError "[Errno 17] File exists: '/r/b'")
  ∧ exit_status r = 1%Z
  ∧ log s' = []
  ∧ stdout s' = []
  ∧ skipped_count s' = 0
  ∧ fs s' !! ["r"; "a"] = None.
Proof. vm_compute. split_and!; reflexivity. Qed.

(** C8: [rglob("*.zip")] (line 21) matches names, not kinds of file, so a
    directory called [d.zip] is returned with the archives, although the
    script sets out to find [.zip] files (lines 4 and 20).  It is then
    handled as an archive: it counts in the total, a destination [/r/d] is
    made for it, opening it fails, and it is reported as skipped after an
    unexpected error. *)
Theorem directory_taken_for_archive :
  let s := Sample.boot Sample.zip_named_dir in
  let '(s', r) := main Sample.crc32 ["r"] true s in
  fs s !! ["r"; "d.zip"] = Some (Dir false)
  ∧ ["r"; "d.zip"] ∈ os.rglob_zip ["r"] (fs s)
  ∧ r = inr tt
  ∧ fs s !! ["r"; "d"] = None
  ∧ fs s' !! ["r"; "d"] = Some (Dir false)
  ∧ {| levelname := ERROR;
       message := "Unexpected error with /r/d.zip: [Errno 21] Is a "
                  +:+ "directory: '/r/d.zip'. Skipping." |} ∈ log s'
  ∧ stdout s' = [""; "Scanned 2 .zip files."; "Successfully extracted: 1";
                 "Skipped / failed: 1"].
Proof.
  vm_compute. split_and!; try reflexivity; repeat constructor.
Qed.

(** ** Running the script a second time *)

(** The claim that a second run leaves the destination directories as the
    first run left them does not hold: an archive extracted by the first
    run may hold an archive of its own, which the second run finds and
    extracts into a new directory inside the first destination. *)
Lemma second_run_nested_counterexample :
  let s0 := Sample.boot Sample.nested in
  let s1 := (main Sample.crc32 ["r"] true s0).1 in
  let s2 := (main Sample.crc32 ["r"] true s1).1 in
  main Sample.crc32 ["r"] true s0 = (s1, inr tt)
  ∧ main Sample.crc32 ["r"] true s1 = (s2, inr tt)
  ∧ extract_dir_of true ["r"; "a.zip"] = inr ["r"; "a"]
  ∧ fs s1 !! ["r"; "a"; "in"] = None
  ∧ fs s2 !! ["r"; "a"; "in"] = Some (Dir false)
  ∧ fs s2 !! ["r"; "a"; "in"; "x.txt"]
    = Some (File false (Raw (Sample.bytes "hello")))
  ∧ fs s2 ≠ fs s1.
Proof.
  intros s0 s1 s2.
  assert (fs s1 !! ["r"; "a"; "in"] = None) as H1 by (vm_compute; reflexivity).
  assert (fs s2 !! ["r"; "a"; "in"] = Some (Dir false)) as H2
    by (vm_compute; reflexivity).
  split; [vm_compute; reflexivity|].
  split; [vm_compute; reflexivity|].
  split; [vm_compute; reflexivity|].
  split; [exact H1|]. split; [exact H2|].
  split; [vm_compute; reflexivity|].
  intros E. rewrite E in H2. rewrite H1 in H2. discriminate H2.
Qed.

Module ReplayFacts.
Import PurePath MonadFacts FsFacts.

Section replay.
Variables m0 mf : gmap Path node.

Lemma replays_start : replays m0 mf m0 mf.
Proof. intros q. by right. Qed.

(** Once the first run is over, the second is where the first ended. *)
Lemma replays_end (m2 : gmap Path node) : replays m0 mf mf m2 → m2 = mf.
Proof. intros H. apply map_eq. intros q. by destruct (H q) as [?|[_ ?]]. Qed.

Lemma replays_grows (m1 m2 : gmap Path node) :
  grows m1 mf → replays m0 mf m1 m2 → grows m1 m2.
Proof.
  intros Hg Hr q. specialize (Hg q).
  destruct (Hr q) as [->|[_ ->]]; [|done].
  destruct (m1 !! q) as [n|]; [by exists n|done].
Qed.

Lemma replays_insert_both (m1 m2 : gmap Path node) (q : Path) (n : node) :
  replays m0 mf m1 m2 → replays m0 mf (<[q:=n]> m1) (<[q:=n]> m2).
Proof.
  intros Hr k. destruct (decide (k = q)) as [->|].
  - left. by rewrite !lookup_insert_eq.
  - rewrite !lookup_insert_ne by done. apply Hr.
Qed.

Lemma replays_insert_left (m1 m2 : gmap Path node) (q : Path) (n : node) :
  replays m0 mf m1 m2 → m2 !! q = Some n → replays m0 mf (<[q:=n]> m1) m2.
Proof.
  intros Hr Hq k. destruct (decide (k = q)) as [->|].
  - left. by rewrite lookup_insert_eq.
  - rewrite lookup_insert_ne by done. apply Hr.
Qed.

(** A path that could not be created in the first run cannot be created
    in the second. *)
Lemma replays_absent (m1 m2 : gmap Path node) (q : Path) :
  grows m1 mf → replays m0 mf m1 m2 → parent_known q m1 →
  m1 !! q = None →
  match m1 !! parent q with Some (Dir false) => False | _ => True end →
  m2 !! q = None ∧ ∃ n2 : option node,
    m2 !! parent q = n2
    ∧ match m1 !! parent q, n2 with
      | Some (Dir l), Some (Dir l') => l = l'
      | Some (File _ _), Some (File _ _) => True
      | None, None => True
      | _, _ => False
      end.
Proof.
  intros Hg Hr Hk Hq Hp.
  pose proof (replays_grows _ _ Hg Hr) as Hg12.
  assert (blocked m1 q) as Hb.
  { split; [done|]. destruct (m1 !! parent q) as [[|[]]|] eqn:E; try done.
    destruct Hk as [?|[? ?]]; [done|congruence]. }
  split.
  { specialize (Hg12 q). rewrite Hq in Hg12. by apply Hg12. }
  eexists. split; [done|].
  destruct (m1 !! parent q) as [[l c|l]|] eqn:E.
  - destruct (grows_File _ _ _ _ _ Hg12 E) as [c' ->]. done.
  - by rewrite (grows_Dir _ _ _ _ Hg12 E).
  - destruct Hb as [_ Hb]. rewrite E in Hb. rewrite Hb in *.
    assert (blocked m1 []) as Hroot.
    { split; [done|]. simpl. by rewrite E. }
    specialize (Hg12 []). rewrite E in Hg12. by rewrite (Hg12 Hroot).
Qed.

Lemma ensure_dir_replayed (q : Path) (e : exn) :
  replayed m0 mf id (parent_known q) (os.ensure_dir q e).
Proof.
  intros m1 m1' r m2 Hk Hrun Hgf Hr. unfold id in *.
  assert (grows m1 mf) as Hg1.
  { etrans; [|exact Hgf]. by eapply ensure_dir_grows. }
  pose proof (replays_grows _ _ Hg1 Hr) as Hg12.
  unfold os.ensure_dir in *.
  destruct (m1 !! q) as [[l c|l]|] eqn:Hq.
  - destruct (grows_File _ _ _ _ _ Hg12 Hq) as [c' ->].
    simplify_eq. eauto.
  - rewrite (grows_Dir _ _ _ _ Hg12 Hq). simplify_eq. eauto.
  - destruct (m1 !! parent q) as [[l c|[]]|] eqn:Hp.
    + destruct (replays_absent _ _ _ Hg1 Hr Hk Hq) as (-> & n2 & -> & Hn);
        [by rewrite Hp|].
      rewrite Hp in Hn. destruct n2 as [[]|]; try done. simplify_eq. eauto.
    + destruct (replays_absent _ _ _ Hg1 Hr Hk Hq) as (-> & n2 & -> & Hn);
        [by rewrite Hp|].
      rewrite Hp in Hn. destruct n2 as [[|[]]|]; try done. simplify_eq. eauto.
    + simplify_eq.
      assert (mf !! q = Some (Dir false)) as Hqf.
      { eapply grows_Dir; [exact Hgf|]. apply lookup_insert_eq. }
      rewrite (grows_Dir _ _ _ _ Hg12 Hp).
      destruct (Hr q) as [E|[_ E]]; rewrite E.
      * rewrite Hq. eexists. split; [done|]. by apply replays_insert_both.
      * rewrite Hqf. eexists. split; [done|].
        apply replays_insert_left; [done|congruence].
    + destruct (replays_absent _ _ _ Hg1 Hr Hk Hq) as (-> & n2 & -> & Hn);
        [by rewrite Hp|].
      rewrite Hp in Hn. destruct n2 as [[]|]; try done. simplify_eq. eauto.
Qed.

Lemma write_file_replayed (q : Path) (c : content) :
  replayed m0 mf id (parent_known q) (os.write_file q c).
Proof.
  intros m1 m1' r m2 Hk Hrun Hgf Hr. unfold id in *.
  assert (grows m1 mf) as Hg1.
  { etrans; [|exact Hgf]. by eapply write_file_grows. }
  pose proof (replays_grows _ _ Hg1 Hr) as Hg12.
  unfold os.write_file in *.
  destruct (m1 !! q) as [[[] c1|l]|] eqn:Hq.
  - destruct (grows_File _ _ _ _ _ Hg12 Hq) as [c' ->].
    simplify_eq. eauto.
  - destruct (grows_File _ _ _ _ _ Hg12 Hq) as [c' ->].
    simplify_eq. eexists. split; [done|]. by apply replays_insert_both.
  - rewrite (grows_Dir _ _ _ _ Hg12 Hq). simplify_eq. eauto.
  - destruct (m1 !! parent q) as [[l c1|[]]|] eqn:Hp.
    + destruct (replays_absent _ _ _ Hg1 Hr Hk Hq) as (-> & n2 & -> & Hn);
        [by rewrite Hp|].
      rewrite Hp in Hn. destruct n2 as [[]|]; try done. simplify_eq. eauto.
    + destruct (replays_absent _ _ _ Hg1 Hr Hk Hq) as (-> & n2 & -> & Hn);
        [by rewrite Hp|].
      rewrite Hp in Hn. destruct n2 as [[|[]]|]; try done. simplify_eq. eauto.
    + simplify_eq.
      assert (∃ c', mf !! q = Some (File false c')) as [c' Hqf].
      { eapply grows_File; [exact Hgf|]. apply lookup_insert_eq. }
      rewrite (grows_Dir _ _ _ _ Hg12 Hp).
      destruct (Hr q) as [E|[_ E]]; rewrite E.
      * rewrite Hq. eexists. split; [done|]. by apply replays_insert_both.
      * rewrite Hqf. eexists. split; [done|]. by apply replays_insert_both.
    + destruct (replays_absent _ _ _ Hg1 Hr Hk Hq) as (-> & n2 & -> & Hn);
        [by rewrite Hp|].
      rewrite Hp in Hn. destruct n2 as [[]|]; try done. simplify_eq. eauto.
Qed.

(** *** Composite statements *)

Section combinators.
Context {S : Type} (proj : S → gmap Path node).

Lemma replayed_weaken {A} (pre pre' : S → Prop) (c : ST S A) :
  (∀ s, pre' s → pre s) →
  replayed m0 mf proj pre c → replayed m0 mf proj pre' c.
Proof. intros Hw Hc s1 s1' r s2 Hp. apply Hc. auto. Qed.

Lemma replayed_ret {A} (pre : S → Prop) (a : A) :
  replayed m0 mf proj pre (mret a).
Proof. intros s1 s1' r s2 _ [= <- <-] _ Hr. by exists s2. Qed.

Lemma replayed_raise {A} (pre : S → Prop) (e : exn) :
  replayed m0 mf proj pre (raise (A:=A) e).
Proof. intros s1 s1' r s2 _ [= <- <-] _ Hr. by exists s2. Qed.

Lemma replayed_lift {A} (pre : S → Prop) (x : exn + A) :
  replayed m0 mf proj pre (lift x).
Proof. intros s1 s1' r s2 _ [= <- <-] _ Hr. by exists s2. Qed.

Lemma replayed_bind {A B} (pre : S → Prop) (post : A → S → Prop)
    (c : ST S A) (k : A → ST S B) :
  replayed m0 mf proj pre c →
  (∀ s s' a, pre s → c s = (s', inr a) → post a s') →
  (∀ a, replayed m0 mf proj (post a) (k a)) →
  (∀ a s s' r, k a s = (s', r) → grows (proj s) (proj s')) →
  replayed m0 mf proj pre (c ≫= k).
Proof.
  intros Hc Hpost Hk Hgk s1 s1' r s2 Hp Hrun Hgf Hr.
  apply bind_inv in Hrun as [(e & Hrun & ->)|(sa & a & Hrun & Hkrun)].
  - destruct (Hc _ _ _ _ Hp Hrun Hgf Hr) as (s2' & Hrun2 & Hr').
    exists s2'. split; [|done]. by rewrite bind_unfold, Hrun2.
  - assert (grows (proj sa) mf) as Hga.
    { etrans; [|exact Hgf]. by eapply Hgk. }
    destruct (Hc _ _ _ _ Hp Hrun Hga Hr) as (s2a & Hrun2 & Hra).
    destruct (Hk a _ _ _ _ (Hpost _ _ _ Hp Hrun) Hkrun Hgf Hra)
      as (s2' & Hkrun2 & Hr').
    exists s2'. split; [|done]. by rewrite bind_unfold, Hrun2.
Qed.

Lemma replayed_try_except {A} (pre : S → Prop) (c : ST S A)
    (h : exn → ST S A) :
  replayed m0 mf proj pre c →
  (∀ e, replayed m0 mf proj (λ _, True) (h e)) →
  (∀ e s s' r, h e s = (s', r) → grows (proj s) (proj s')) →
  replayed m0 mf proj pre (try_except c h).
Proof.
  intros Hc Hh Hgh s1 s1' r s2 Hp Hrun Hgf Hr. unfold try_except in *.
  destruct (c s1) as [sa [e|a]] eqn:Hrun1.
  - assert (grows (proj sa) mf) as Hga.
    { etrans; [|exact Hgf]. by eapply Hgh. }
    destruct (Hc _ _ _ _ Hp Hrun1 Hga Hr) as (s2a & -> & Hra).
    by apply (Hh e sa).
  - simplify_eq.
    destruct (Hc _ _ _ _ Hp Hrun1 Hgf Hr) as (s2' & -> & Hr'). eauto.
Qed.

Lemma for_each_proj_grows {A} (l : list A) (body : A → ST S unit) :
  (∀ x s s' r, body x s = (s', r) → grows (proj s) (proj s')) →
  ∀ s s' r, for_each l body s = (s', r) → grows (proj s) (proj s').
Proof.
  intros Hg. induction l as [|x l IH]; intros s s' r; simpl.
  - intros [= <- _]. reflexivity.
  - intros [(e & H & _)|(s1 & [] & H & Hk)]%bind_inv.
    + by eapply Hg.
    + etrans; [by eapply Hg|by eapply IH].
Qed.

Lemma replayed_for_each {A} (l : list A) (body : A → ST S unit) :
  (∀ x, x ∈ l → replayed m0 mf proj (λ _, True) (body x)) →
  (∀ x s s' r, body x s = (s', r) → grows (proj s) (proj s')) →
  replayed m0 mf proj (λ _, True) (for_each l body).
Proof.
  intros Hb Hg. induction l as [|x l IH]; [apply replayed_ret|].
  simpl. apply (replayed_bind _ (λ _ _, True)).
  - apply Hb. left.
  - done.
  - intros _. apply IH. intros y Hy. apply Hb. by right.
  - intros _. by apply for_each_proj_grows.
Qed.

End combinators.

(** *** Library calls *)

Lemma makedirs_from_replayed (pre : Path) (rest : list string)
    (on_file : Path → list string → exn) :
  replayed m0 mf id (parent_known pre) (os.makedirs_from pre rest on_file).
Proof.
  revert pre. induction rest as [|c rest IH]; intros pre; simpl.
  - apply ensure_dir_replayed.
  - apply (replayed_bind id _ (λ _, parent_known (pre ++ [c]))).
    + apply ensure_dir_replayed.
    + intros m m' [] _ [l Hl]%ensure_dir_ok. right.
      unfold parent. rewrite removelast_last. eauto.
    + intros ?. apply IH.
    + intros ? m m' r. apply makedirs_from_grows.
Qed.

Lemma ZipFile_replayed (z : Path) :
  mf !! z = m0 !! z →
  replayed m0 mf id (λ _, True) (zipfile.ZipFile z).
Proof.
  intros Hz m1 m1' r m2 _ Hrun _ Hr. unfold id in *.
  assert (m2 !! z = m1 !! z) as E.
  { destruct (Hr z) as [?|[? ?]]; congruence. }
  pose proof (ZipFile_fs z m1) as H1. rewrite Hrun in H1. simpl in H1.
  subst m1'. exists m2. split; [|done].
  pose proof (ZipFile_fs z m2) as H2.
  destruct (zipfile.ZipFile z m2) as [m2' r2] eqn:Hrun2. simpl in H2.
  subst m2'. f_equal.
  unfold zipfile.ZipFile in Hrun, Hrun2. rewrite E in Hrun2.
  repeat case_match; simplify_eq; done.
Qed.

Section crc.
Variable crc32 : content → N.

Lemma extract_member_replayed (d : Path) (x : member) :
  replayed m0 mf id (λ _, True) (zipfile.extract_member crc32 d x).
Proof.
  destruct x as [zi data]. unfold zipfile.extract_member.
  set (target := d ++ zipfile.arcname zi).
  apply (replayed_bind id _ (λ _, parent_known target)).
  - eapply replayed_weaken; [|apply makedirs_from_replayed]. by left.
  - intros m m' [] _ [l Hl]%makedirs_from_ok. right. eauto.
  - intros ?. destruct (zipfile.is_dir zi); [apply ensure_dir_replayed|].
    apply (replayed_bind id _ (λ _, parent_known target)).
    + destruct (encrypted zi); [apply replayed_raise|apply replayed_ret].
    + intros m m' [] Hk Hrun.
      destruct (encrypted zi); unfold raise, mret, ST_ret in Hrun;
        by simplify_eq.
    + intros ?. apply (replayed_bind id _ (λ _ _, True)).
      * apply write_file_replayed.
      * done.
      * intros ?.
        destruct (_ =? _)%N; [apply replayed_ret|apply replayed_raise].
      * intros ? m m' r.
        destruct (_ =? _)%N; intros [= <- _]; reflexivity.
    + intros ? m m' r Hrun.
      eapply (steps_bind grows); [apply write_file_grows| |exact Hrun].
      intros ? ? ? ?. destruct (_ =? _)%N; intros [= <- _]; reflexivity.
  - intros ? m m' r Hrun.
    destruct (zipfile.is_dir zi); [by eapply ensure_dir_grows|].
    eapply (steps_bind grows); [| |exact Hrun].
    + destruct (encrypted zi); intros ? ? ? [= <- _]; reflexivity.
    + intros ?. apply (steps_bind grows); [apply write_file_grows|].
      intros ? ? ? ?. destruct (_ =? _)%N; intros [= <- _]; reflexivity.
Qed.

Lemma extractall_replayed (zf : list member) (d : Path) :
  replayed m0 mf id (λ _, True) (zipfile.extractall crc32 zf d).
Proof.
  apply replayed_for_each.
  - intros x _. apply extract_member_replayed.
  - intros x m m' r. apply extract_member_grows.
Qed.

(** *** The script *)

Lemma on_fs_replayed {A : Type} (pre : gmap Path node → Prop) (c : FS A) :
  replayed m0 mf id pre c →
  replayed m0 mf fs (λ s, pre (fs s)) (on_fs c).
Proof.
  intros Hc s1 s1' r s2 Hp [Hrun _]%on_fs_inv Hgf Hr.
  destruct (Hc _ _ _ (fs s2) Hp Hrun Hgf Hr) as (m2' & Hrun2 & Hr').
  exists (set_fs (λ _, m2') s2). split; [by apply on_fs_eq|done].
Qed.

Lemma modify_replayed (f : state → state) :
  (∀ s, fs (f s) = fs s) →
  replayed m0 mf fs (λ _, True) (modify f).
Proof.
  intros Hf s1 s1' r s2 _ [= <- <-] _ Hr. exists (f s2).
  split; [done|]. by rewrite !Hf.
Qed.

Lemma emit_then_count_replayed (l : level) (msg : string)
    (f : state → state) :
  (∀ s, fs (f s) = fs s) →
  replayed m0 mf fs (λ _, True) (logging.emit l msg ;; modify f).
Proof.
  intros Hf. apply (replayed_bind fs _ (λ _ _, True)).
  - by apply modify_replayed.
  - done.
  - intros ?. by apply modify_replayed.
  - intros ?. by apply (modify_grows f).
Qed.

Lemma try_block_replayed (z d : Path) :
  mf !! z = m0 !! z →
  replayed m0 mf fs (λ _, True) (try_block crc32 z d).
Proof.
  intros Hz. unfold try_block.
  apply (replayed_bind fs _ (λ _ _, True)).
  - by apply (on_fs_replayed (λ _, True)), ZipFile_replayed.
  - done.
  - intros zf. apply (replayed_bind fs _ (λ _ _, True)).
    + apply replayed_lift.
    + done.
    + intros [bad|].
      * by apply emit_then_count_replayed.
      * apply (replayed_bind fs _ (λ _ _, True)).
        -- apply (on_fs_replayed (λ _, True)), extractall_replayed.
        -- done.
        -- intros ?. by apply emit_then_count_replayed.
        -- intros ?. apply (steps_bind fs_grows); [apply emit_grows|].
           intros ?. by apply modify_grows.
    + intros [bad|].
      * apply (steps_bind fs_grows); [apply emit_grows|].
        intros ?. by apply modify_grows.
      * apply (steps_bind fs_grows).
        -- apply on_fs_grows, extractall_grows.
        -- intros ?. apply (steps_bind fs_grows); [apply emit_grows|].
           intros ?. by apply modify_grows.
  - intros zf. apply (steps_bind fs_grows); [apply (steps_lift fs_grows)|].
    intros [bad|].
    + apply (steps_bind fs_grows); [apply emit_grows|].
      intros ?. by apply modify_grows.
    + apply (steps_bind fs_grows).
      * apply on_fs_grows, extractall_grows.
      * intros ?. apply (steps_bind fs_grows); [apply emit_grows|].
        intros ?. by apply modify_grows.
Qed.

Lemma except_clauses_replayed (z : Path) (e : exn) :
  replayed m0 mf fs (λ _, True) (except_clauses z e).
Proof.
  destruct e; simpl; try apply replayed_raise.
  all: by apply emit_then_count_replayed.
Qed.

Lemma loop_body_replayed (sub : bool) (z : Path) :
  mf !! z = m0 !! z →
  replayed m0 mf fs (λ _, True) (loop_body crc32 sub z).
Proof.
  intros Hz. unfold loop_body.
  apply (replayed_bind fs _ (λ _ _, True)).
  - apply replayed_lift.
  - done.
  - intros d. apply (replayed_bind fs _ (λ _ _, True)).
    + eapply replayed_weaken;
        [|apply (on_fs_replayed (parent_known [])), makedirs_from_replayed].
      intros s _. by left.
    + done.
    + intros ?. apply replayed_try_except.
      * by apply try_block_replayed.
      * apply except_clauses_replayed.
      * intros e. apply except_clauses_grows.
    + intros ?. apply (steps_try_except fs_grows).
      * apply try_block_grows.
      * apply except_clauses_grows.
  - intros d. apply (steps_bind fs_grows).
    + apply on_fs_grows, makedirs_from_grows.
    + intros ?. apply (steps_try_except fs_grows).
      * apply try_block_grows.
      * apply except_clauses_grows.
Qed.

Lemma loop_replayed (sub : bool) (zs : list Path) :
  Forall (λ z, mf !! z = m0 !! z) zs →
  replayed m0 mf fs (λ _, True) (for_each zs (loop_body crc32 sub)).
Proof.
  intros Hzs. apply replayed_for_each.
  - intros z Hz. apply loop_body_replayed.
    by eapply (proj1 (Forall_forall _ _) Hzs).
  - intros z. apply loop_body_grows.
Qed.

End crc.

End replay.

End ReplayFacts.

Lemma report_ok (total : nat) (s : state) :
  ∃ s', report total s = (s', inr tt) ∧ fs s' = fs s.
Proof.
  unfold report, mbind, ST_bind, print, gets, modify. eexists. split; done.
Qed.

Lemma exists_grows (base : Path) (m m' : gmap Path node) :
  grows m m' → os.exists_ base m = true → os.exists_ base m' = true.
Proof.
  unfold os.exists_. intros Hg [n Hn]%bool_decide_eq_true.
  destruct (FsFacts.grows_lookup _ _ _ _ Hg Hn) as (n' & Hn' & _).
  apply bool_decide_eq_true. eauto.
Qed.

(** C9 (as amended): running [main] twice over the same root in subfolder
    mode is idempotent whenever the first run leaves the archives as it
    found them, that is, the second scan returns the same archive paths in
    the same order and every one of them still holds what it held.  Then,
    however the first run ended, the second run ends the same way (it
    returns if the first returned, and is left by the same exception if the
    first was), and the whole file system after it (destination directories
    and their contents included) is the file system the first run left. *)
Theorem second_run_changes_nothing (crc32 : content → N) (base : Path)
    (s0 s1 : state) (r : exn + unit) :
  main crc32 base true s0 = (s1, r) →
  os.rglob_zip base (fs s1) = os.rglob_zip base (fs s0) →
  Forall (λ z, fs s1 !! z = fs s0 !! z) (os.rglob_zip base (fs s0)) →
  ∃ s2, main crc32 base true s1 = (s2, r) ∧ fs s2 = fs s1.
Proof.
  intros Hmain Hscan Hkeep.
  pose proof (main_grows crc32 base true _ _ _ Hmain) as Hg.
  rewrite main_unfold in Hmain. rewrite main_unfold.
  destruct (os.exists_ base (fs s0)) eqn:Hex.
  2:{ injection Hmain as <- <-. cbn [fs add_line]. rewrite Hex.
      eexists. split; [done|]. done. }
  rewrite (exists_grows _ _ _ Hg Hex), Hscan.
  destruct (os.rglob_zip base (fs s0)) as [|z zs] eqn:Hzs.
  { injection Hmain as <- <-. eexists. split; [done|]. done. }
  cbv zeta in *. rewrite <-Hzs in *. clear Hzs.
  destruct (for_each _ _ (reset_counts s0)) as [sa ra] eqn:Hloop.
  assert (fs s1 = fs sa) as Hfs.
  { destruct ra as [e|[]]; [by injection Hmain as <- _|].
    destruct (report_ok (length (os.rglob_zip base (fs s0))) sa)
      as (s1' & Hrep & Hfs). rewrite Hrep in Hmain.
    by injection Hmain as <-. }
  destruct (ReplayFacts.loop_replayed (fs s0) (fs s1) crc32 true _ Hkeep
              (reset_counts s0) sa ra (reset_counts s1) I Hloop)
    as (sb & Hloop2 & Hend).
  { rewrite Hfs. apply FsFacts.grows_preorder. }
  { apply ReplayFacts.replays_start. }
  rewrite <-Hfs in Hend. apply ReplayFacts.replays_end in Hend.
  rewrite Hloop2. destruct ra as [e|[]].
  - injection Hmain as <- <-. exists sb. split; [done|congruence].
  - destruct (report_ok (length (os.rglob_zip base (fs s0))) sa)
      as (s1' & Hrep & Hfs1). rewrite Hrep in Hmain.
    destruct (report_ok (length (os.rglob_zip base (fs s0))) sb)
      as (s2 & Hrep2 & Hfs2).
    exists s2. injection Hmain as <- <-. split; [done|congruence].
Qed.

Lemma second_run_changes_nothing_witness :
  let s0 := Sample.boot Sample.good_and_damaged in
  let s1 := (main Sample.crc32 ["r"] true s0).1 in
  let r := (main Sample.crc32 ["r"] true s0).2 in
  (main Sample.crc32 ["r"] true s0 = (s1, r)
   ∧ os.rglob_zip ["r"] (fs s1) = os.rglob_zip ["r"] (fs s0)
   ∧ Forall (λ z, fs s1 !! z = fs s0 !! z) (os.rglob_zip ["r"] (fs s0)))
  ∧ ∃ s2, main Sample.crc32 ["r"] true s1 = (s2, r) ∧ fs s2 = fs s1.
Proof.
  intros s0 s1 r.
  assert (main Sample.crc32 ["r"] true s0 = (s1, r)) as Hmain
    by (vm_compute; reflexivity).
  assert (os.rglob_zip ["r"] (fs s1) = os.rglob_zip ["r"] (fs s0)) as Hscan
    by (vm_compute; reflexivity).
  assert (Forall (λ z, fs s1 !! z = fs s0 !! z) (os.rglob_zip ["r"] (fs s0)))
    as Hkeep.
  { replace (os.rglob_zip ["r"] (fs s0))
      with [["r"; "b.zip"]; ["r"; "a.zip"]] by (vm_compute; reflexivity).
    repeat constructor; vm_compute; reflexivity. }
  split; [exact (conj Hmain (conj Hscan Hkeep))|].
  exact (second_run_changes_nothing Sample.crc32 ["r"] s0 s1 r
           Hmain Hscan Hkeep).
Defined.

(** * Further properties *)

(** ** What [mkdir] on line 40 does *)

Module MkdirFacts.
Import PurePath MonadFacts FsFacts.

Lemma makedirs_from_chain (pre : Path) (rest : list string)
    (on_file : Path → list string → exn) (m m' : gmap Path node) :
  os.makedirs_from pre rest on_file m = (m', inr tt) →
  ∀ q : Path, pre `prefix_of` q → q `prefix_of` pre ++ rest →
       ∃ l, m' !! q = Some (Dir l).
Proof.
  revert pre m. induction rest as [|c rest IH]; intros pre m; simpl.
  - intros Hrun q Hpq Hqp. rewrite app_nil_r in Hqp.
    assert (q = pre) as -> by (by apply (anti_symm prefix)).
    by eapply ensure_dir_ok.
  - intros [(e & _ & [=])|(m1 & [] & Hpre & Hk)]%bind_inv q Hpq Hqp.
    destruct (decide (q = pre)) as [->|Hne].
    + destruct (ensure_dir_ok _ _ _ _ Hpre) as [l Hl]. exists l.
      eapply grows_Dir; [|exact Hl]. by eapply makedirs_from_grows.
    + apply (IH _ _ Hk); [|by rewrite <-app_assoc].
      destruct Hpq as [k ->]. destruct Hqp as [k' Hk'].
      rewrite <-app_assoc in Hk'. apply app_inv_head in Hk'.
      destruct k as [|c' k]; [by rewrite app_nil_r in Hne|].
      simpl in Hk'. injection Hk' as <- _.
      exists k. by rewrite <-app_assoc.
Qed.

Lemma makedirs_from_noop (pre : Path) (rest : list string)
    (on_file : Path → list string → exn) (m : gmap Path node) :
  (∀ q : Path, pre `prefix_of` q → q `prefix_of` pre ++ rest →
        ∃ l, m !! q = Some (Dir l)) →
  os.makedirs_from pre rest on_file m = (m, inr tt).
Proof.
  revert pre. induction rest as [|c rest IH]; intros pre Hd; simpl.
  - destruct (Hd pre) as [l Hl]; [done|by rewrite app_nil_r|].
    unfold os.ensure_dir. by rewrite Hl.
  - destruct (Hd pre) as [l Hl]; [done|by apply prefix_app_r|].
    rewrite bind_unfold. unfold os.ensure_dir at 1. rewrite Hl.
    apply IH. intros q Hpq Hqp. apply Hd.
    + etrans; [|exact Hpq]. by apply prefix_app_r.
    + by rewrite <-app_assoc in Hqp.
Qed.

End MkdirFacts.

(** X2: [mkdir(parents=True, exist_ok=True)] on line 40, when it succeeds,
    leaves every directory on the way from the root to the destination in
    place, having added nothing but directories; called again it changes
    nothing and succeeds again; and when the destination was already there
    with all its parents, it has changed nothing at all. *)
Theorem mkdir_parents_exist_ok_spec (d : Path) (m m' : gmap Path node) :
  os.mkdir_parents_exist_ok d m = (m', inr tt) →
  dir_chain d m' ∧ adds_dirs m m'
  ∧ os.mkdir_parents_exist_ok d m' = (m', inr tt)
  ∧ (dir_chain d m → m' = m).
Proof.
  unfold os.mkdir_parents_exist_ok, dir_chain. intros Hrun.
  assert (∀ q : Path, q `prefix_of` d → ∃ l, m' !! q = Some (Dir l))
    as Hchain.
  { intros q Hq. eapply MkdirFacts.makedirs_from_chain; [exact Hrun| |done].
    apply prefix_nil. }
  split_and!; [done| | |].
  - by eapply RaiseFacts.makedirs_from_adds.
  - apply MkdirFacts.makedirs_from_noop. intros q _ Hq. by apply Hchain.
  - intros Hm.
    rewrite MkdirFacts.makedirs_from_noop in Hrun; [by simplify_eq|].
    intros q _ Hq. by apply Hm.
Qed.

Lemma mkdir_parents_exist_ok_spec_witness :
  let m := Sample.one_archive in
  let d := ["r"; "new"; "deep"] in
  let m' := (os.mkdir_parents_exist_ok d m).1 in
  os.mkdir_parents_exist_ok d m = (m', inr tt)
  ∧ dir_chain d m' ∧ adds_dirs m m'
  ∧ os.mkdir_parents_exist_ok d m' = (m', inr tt)
  ∧ (dir_chain d m → m' = m).
Proof.
  intros m d m'.
  assert (os.mkdir_parents_exist_ok d m = (m', inr tt)) as Hrun
    by (vm_compute; reflexivity).
  split; [exact Hrun|].
  exact (mkdir_parents_exist_ok_spec d m m' Hrun).
Defined.


(** ** Properties every step of the script keeps *)

Module StepFacts.
Import PurePath MonadFacts.

Lemma near_prefix (b x q : Path) : near b x → q `prefix_of` x → near b q.
Proof.
  intros [Hx|Hx] Hq.
  - left. by etrans.
  - destruct (prefix_weak_total _ _ _ Hq Hx); [by left|by right].
Qed.

Lemma parent_prefix (p : Path) : parent p `prefix_of` p.
Proof.
  unfold parent. destruct (decide (p = [])) as [->|Hp]; [done|].
  exists [List.last p ""]. by apply app_removelast_last.
Qed.

(** The destination of an archive below [b] is at or below [b]. *)
Lemma extract_dir_below (b z d : Path) (sub : bool) :
  b `prefix_of` z → z ≠ b → extract_dir_of sub z = inr d → b `prefix_of` d.
Proof.
  intros [k ->] Hne Hd.
  assert (k ≠ []) as Hk by (intros ->; by rewrite app_nil_r in Hne).
  assert (b `prefix_of` parent (b ++ k)) as Hpar.
  { exists (removelast k). unfold parent. by rewrite removelast_app. }
  destruct sub; simpl in Hd.
  - unfold PurePathOps.with_suffix in Hd. case_match; [done|].
    simplify_eq. by apply prefix_app_r.
  - by simplify_eq.
Qed.

Section steps_of_the_script.
Context (R : relation (gmap Path node)) `{!PreOrder R} (b : Path).
Hypothesis ensure_dir_R : ∀ q e, near b q → steps R (os.ensure_dir q e).
Hypothesis write_file_R : ∀ q c, near b q → steps R (os.write_file q c).
Variable crc32 : content → N.

#[local] Instance on_states_preorder : PreOrder (on_states R).
Proof.
  split.
  - intros s. unfold on_states. reflexivity.
  - intros s1 s2 s3. unfold on_states. apply transitivity.
Qed.

Lemma makedirs_from_R (pre : Path) (rest : list string)
    (on_file : Path → list string → exn) :
  near b (pre ++ rest) → steps R (os.makedirs_from pre rest on_file).
Proof.
  revert pre. induction rest as [|c rest IH]; intros pre Hn; simpl.
  - rewrite app_nil_r in Hn. by apply ensure_dir_R.
  - apply (steps_bind R).
    + apply ensure_dir_R. eapply near_prefix; [exact Hn|]. by apply prefix_app_r.
    + intros _. apply IH. by rewrite <-app_assoc.
Qed.

Lemma extract_member_R (d : Path) (x : member) :
  b `prefix_of` d → steps R (zipfile.extract_member crc32 d x).
Proof.
  intros Hd. destruct x as [zi data]. unfold zipfile.extract_member.
  assert (near b (d ++ zipfile.arcname zi)) as Ht
    by (right; by apply prefix_app_r).
  apply (steps_bind R).
  { apply makedirs_from_R. simpl. eapply near_prefix; [exact Ht|].
    apply parent_prefix. }
  intros _. destruct (zipfile.is_dir zi); [by apply ensure_dir_R|].
  apply (steps_bind R).
  { destruct (encrypted zi); [apply (steps_raise R)|apply (steps_ret R)]. }
  intros _. apply (steps_bind R); [by apply write_file_R|].
  intros _. destruct (_ =? _)%N; [apply (steps_ret R)|apply (steps_raise R)].
Qed.

Lemma extractall_R (zf : list member) (d : Path) :
  b `prefix_of` d → steps R (zipfile.extractall crc32 zf d).
Proof.
  intros Hd. apply (steps_for_each R). intros x _. by apply extract_member_R.
Qed.

Lemma ZipFile_R (z : Path) : steps R (zipfile.ZipFile z).
Proof.
  intros m m' r H. pose proof (ZipFile_fs z m) as Hm.
  rewrite H in Hm. simpl in Hm. by subst.
Qed.

Lemma on_fs_R {A : Type} (c : FS A) : steps R c → steps (on_states R) (on_fs c).
Proof. intros Hc s s' r [Hs _]%on_fs_inv. by eapply Hc. Qed.

Lemma modify_R (f : state → state) :
  (∀ s, fs (f s) = fs s) → steps (on_states R) (modify f).
Proof. intros Hf s s' r [= <- _]. unfold on_states. by rewrite Hf. Qed.

Lemma emit_then_count_R (l : level) (msg : string) (f : state → state) :
  (∀ s, fs (f s) = fs s) →
  steps (on_states R) (logging.emit l msg ;; modify f).
Proof.
  intros Hf. apply (steps_bind (on_states R)); [by apply modify_R|].
  intros _. by apply modify_R.
Qed.

Lemma try_block_R (z d : Path) :
  b `prefix_of` d → steps (on_states R) (try_block crc32 z d).
Proof.
  intros Hd. unfold try_block.
  apply (steps_bind (on_states R)); [apply on_fs_R, ZipFile_R|intros zf].
  apply (steps_bind (on_states R)); [apply (steps_lift (on_states R))|].
  intros [bad|]; [by apply emit_then_count_R|].
  apply (steps_bind (on_states R)); [by apply on_fs_R, extractall_R|].
  intros _. by apply emit_then_count_R.
Qed.

Lemma except_clauses_R (z : Path) (e : exn) :
  steps (on_states R) (except_clauses z e).
Proof.
  destruct e; simpl; try apply (steps_raise (on_states R)).
  all: by apply emit_then_count_R.
Qed.

Lemma loop_body_R (sub : bool) (z : Path) :
  b `prefix_of` z → z ≠ b → steps (on_states R) (loop_body crc32 sub z).
Proof.
  intros Hz Hne s s' r. rewrite loop_body_unfold.
  destruct (extract_dir_of sub z) as [e|d] eqn:Hd.
  { intros [= <- _]. unfold on_states. reflexivity. }
  pose proof (extract_dir_below _ _ _ _ Hz Hne Hd) as Hbd.
  destruct (os.mkdir_parents_exist_ok d (fs s)) as [m1 [e|[]]] eqn:Hmk.
  { intros [= <- _]. eapply makedirs_from_R; [|exact Hmk]. by right. }
  intros Htry. trans (set_fs (λ _, m1) s).
  - eapply makedirs_from_R; [|exact Hmk]. by right.
  - eapply (steps_try_except (on_states R)); [| |exact Htry].
    + by apply try_block_R.
    + apply except_clauses_R.
Qed.

Lemma main_R (sub : bool) : steps (on_states R) (main crc32 b sub).
Proof.
  intros s s' r. rewrite main_unfold.
  destruct (os.exists_ b (fs s));
    [|intros [= <- _]; unfold on_states; reflexivity].
  destruct (os.rglob_zip b (fs s)) as [|z zs] eqn:Hzs;
    [intros [= <- _]; unfold on_states; reflexivity|].
  cbv zeta. rewrite <-Hzs.
  assert (steps (on_states R)
            (for_each (os.rglob_zip b (fs s)) (loop_body crc32 sub))) as Hloop.
  { apply (steps_for_each (on_states R)).
    intros x (_ & ? & ? & _)%DiscoveryFacts.elem_of_rglob_zip.
    by apply loop_body_R. }
  clear Hzs. destruct (for_each _ _ _) as [s1 [e|[]]] eqn:Hrun.
  - intros [= <- _]. by apply Hloop in Hrun.
  - intros Hrep. apply Hloop in Hrun.
    unfold report, mbind, ST_bind, print, gets, modify in Hrep.
    simplify_eq. done.
Qed.

End steps_of_the_script.

End StepFacts.


(** ** What [main] never does to the tree *)

Module TreeFacts.
Import PurePath MonadFacts.

Lemma is_dir_node_true (o : option node) :
  is_dir_node o = true ↔ ∃ l, o = Some (Dir l).
Proof.
  destruct o as [[]|]; simpl; split; try done; try (intros [? [=]]); eauto.
Qed.

Lemma dir_chain_check_sound (p : Path) (m : gmap Path node) :
  dir_chain_check p m = true → dir_chain p m.
Proof.
  unfold dir_chain_check. rewrite forallb_forall.
  intros H q [k ->]. apply is_dir_node_true.
  specialize (H (length q)). rewrite take_app_length in H. apply H.
  apply in_seq. rewrite length_app. lia.
Qed.

Lemma well_formed_check_sound (m : gmap Path node) :
  well_formed_check m = true → well_formed m.
Proof.
  unfold well_formed_check. rewrite forallb_forall.
  intros H p n Hp Hne. apply is_dir_node_true.
  specialize (H p). rewrite orb_true_iff, bool_decide_eq_true in H.
  destruct H as [?|?]; [|done|done].
  apply list_elem_of_In, list_elem_of_fmap. exists (p, n).
  split; [done|]. by apply elem_of_map_to_list.
Qed.

(** *** Locked files *)

#[global] Instance keeps_locked_preorder : PreOrder keeps_locked.
Proof.
  split.
  - by intros m p c.
  - intros m1 m2 m3 H12 H23 p c Hp. by apply H23, H12.
Qed.

Lemma ensure_dir_keeps_locked (q : Path) (e : exn) :
  steps keeps_locked (os.ensure_dir q e).
Proof.
  intros m m' r. unfold os.ensure_dir.
  repeat case_match; intros [= <- _]; try reflexivity.
  intros p c Hp. rewrite lookup_insert_ne; [done|congruence].
Qed.

Lemma write_file_keeps_locked (q : Path) (c : content) :
  steps keeps_locked (os.write_file q c).
Proof.
  intros m m' r. unfold os.write_file.
  repeat case_match; intros [= <- _]; try reflexivity.
  all: intros p c' Hp; rewrite lookup_insert_ne; [done|congruence].
Qed.

(** *** Well-formed trees *)

#[global] Instance keeps_well_formed_preorder : PreOrder keeps_well_formed.
Proof.
  split.
  - intros m H. exact H.
  - intros m1 m2 m3 H12 H23 H. apply H23, H12, H.
Qed.

Lemma well_formed_insert (m : gmap Path node) (q : Path) (n : node) :
  well_formed m →
  (∃ l, m !! parent q = Some (Dir l)) →
  (∀ l, m !! q ≠ Some (Dir l)) →
  well_formed (<[q:=n]> m).
Proof.
  intros Hwf [l Hl] Hq p n' Hp Hne.
  assert (parent q ≠ q) as Hpq by congruence.
  destruct (decide (p = q)) as [->|Hpne].
  - exists l. by rewrite lookup_insert_ne.
  - rewrite lookup_insert_ne in Hp by done.
    destruct (Hwf p n' Hp Hne) as [l' Hl'].
    exists l'. rewrite lookup_insert_ne; [done|]. intros E.
    rewrite <-E in Hl'. by eapply Hq.
Qed.

Lemma ensure_dir_keeps_well_formed (q : Path) (e : exn) :
  steps keeps_well_formed (os.ensure_dir q e).
Proof.
  intros m m' r. unfold os.ensure_dir.
  destruct (m !! q) as [[]|] eqn:Hq; try (intros [= <- _]; reflexivity).
  destruct (m !! parent q) as [[|[]]|] eqn:Hp;
    try (intros [= <- _]; reflexivity).
  intros [= <- _] Hwf. apply well_formed_insert; [done|eauto|congruence].
Qed.

Lemma write_file_keeps_well_formed (q : Path) (c : content) :
  steps keeps_well_formed (os.write_file q c).
Proof.
  intros m m' r. unfold os.write_file.
  destruct (m !! q) as [[[] c1|l]|] eqn:Hq;
    try (intros [= <- _]; reflexivity).
  - intros [= <- _] Hwf.
    destruct (decide (q = [])) as [->|Hne].
    + intros p n Hp Hpne. rewrite lookup_insert_ne in Hp by done.
      destruct (Hwf p n Hp Hpne) as [l' Hl'].
      exists l'. rewrite lookup_insert_ne; [done|]. intros E.
      rewrite <-E in Hl'. congruence.
    + apply well_formed_insert; [done| |congruence]. by eapply Hwf.
  - destruct (m !! parent q) as [[|[]]|] eqn:Hp;
      try (intros [= <- _]; reflexivity).
    intros [= <- _] Hwf. apply well_formed_insert; [done|eauto|congruence].
Qed.

(** *** Staying below the root *)

#[global] Instance stays_below_preorder (b : Path) : PreOrder (stays_below b).
Proof.
  split.
  - intros m Hm. split; [exact Hm|]. intros p _. reflexivity.
  - intros m1 m2 m3 H12 H23 H1.
    destruct (H12 H1) as [H2 Ho12]. destruct (H23 H2) as [H3 Ho23].
    split; [done|]. intros p Hp. by rewrite Ho23, Ho12.
Qed.

Lemma stays_below_insert (b q : Path) (n : node) (m : gmap Path node) :
  near b q → (∀ l, m !! q ≠ Some (Dir l)) → stays_below b m (<[q:=n]> m).
Proof.
  intros Hn Hq Hm.
  assert (¬ q `prefix_of` b) as Hnot.
  { intros Hqb. destruct (Hm q Hqb) as [l Hl]. by eapply Hq. }
  destruct Hn as [?|Hbq]; [done|]. split.
  - intros k Hk. destruct (Hm k Hk) as [l Hl]. exists l.
    rewrite lookup_insert_ne; [done|]. by intros ->.
  - intros p Hp. rewrite lookup_insert_ne; [done|]. intros ->.
    apply Hp. split; [done|]. by intros ->.
Qed.

Lemma ensure_dir_stays_below (b q : Path) (e : exn) :
  near b q → steps (stays_below b) (os.ensure_dir q e).
Proof.
  intros Hn m m' r. unfold os.ensure_dir.
  destruct (m !! q) as [[]|] eqn:Hq; try (intros [= <- _]; reflexivity).
  destruct (m !! parent q) as [[|[]]|] eqn:Hp;
    try (intros [= <- _]; reflexivity).
  intros [= <- _]. apply stays_below_insert; [done|congruence].
Qed.

Lemma write_file_stays_below (b q : Path) (c : content) :
  near b q → steps (stays_below b) (os.write_file q c).
Proof.
  intros Hn m m' r. unfold os.write_file.
  destruct (m !! q) as [[[] c1|l]|] eqn:Hq;
    try (intros [= <- _]; reflexivity).
  - intros [= <- _]. apply stays_below_insert; [done|congruence].
  - destruct (m !! parent q) as [[|[]]|] eqn:Hp;
      try (intros [= <- _]; reflexivity).
    intros [= <- _]. apply stays_below_insert; [done|congruence].
Qed.

End TreeFacts.

(** X3: [main] removes nothing and respects locks: whatever it does and
    however it ends, a directory that was there is still there with the
    same lock, a file the process may not write still holds what it held,
    and any other file is still a file that may be written (its contents
    may have been replaced by an extraction). *)
Theorem main_never_removes (crc32 : content → N) (base : Path) (sub : bool)
    (s s' : state) (r : exn + unit) :
  main crc32 base sub s = (s', r) →
  ∀ p : Path,
    match fs s !! p with
    | Some (Dir l) => fs s' !! p = Some (Dir l)
    | Some (File true c) => fs s' !! p = Some (File true c)
    | Some (File false c) => ∃ c', fs s' !! p = Some (File false c')
    | None => True
    end.
Proof.
  intros Hmain p.
  pose proof (main_grows crc32 base sub _ _ _ Hmain) as Hg.
  assert (keeps_locked (fs s) (fs s')) as Hl.
  { eapply (StepFacts.main_R keeps_locked base); [| |exact Hmain].
    - intros q e _. apply TreeFacts.ensure_dir_keeps_locked.
    - intros q c _. apply TreeFacts.write_file_keeps_locked. }
  destruct (fs s !! p) as [[[] c|l]|] eqn:Hp; [| | |done].
  - by apply Hl.
  - by eapply FsFacts.grows_File.
  - by eapply FsFacts.grows_Dir.
Qed.

Lemma main_never_removes_witness :
  let s := Sample.boot Sample.good_and_damaged in
  let s' := (main Sample.crc32 ["r"] true s).1 in
  let r := (main Sample.crc32 ["r"] true s).2 in
  main Sample.crc32 ["r"] true s = (s', r)
  ∧ ∀ p : Path,
      match fs s !! p with
      | Some (Dir l) => fs s' !! p = Some (Dir l)
      | Some (File true c) => fs s' !! p = Some (File true c)
      | Some (File false c) => ∃ c', fs s' !! p = Some (File false c')
      | None => True
      end.
Proof.
  intros s s' r.
  assert (main Sample.crc32 ["r"] true s = (s', r)) as Hmain
    by (vm_compute; reflexivity).
  split; [exact Hmain|].
  exact (main_never_removes Sample.crc32 ["r"] true s s' r Hmain).
Defined.

(** X4: [main] keeps the tree well formed: if every node but the root sat
    in a directory before, the same is true afterwards, however the run
    ends. *)
Theorem main_keeps_well_formed (crc32 : content → N) (base : Path)
    (sub : bool) (s s' : state) (r : exn + unit) :
  well_formed (fs s) →
  main crc32 base sub s = (s', r) →
  well_formed (fs s').
Proof.
  intros Hwf Hmain.
  eapply (StepFacts.main_R keeps_well_formed base);
    [| |exact Hmain|exact Hwf].
  - intros q e _. apply TreeFacts.ensure_dir_keeps_well_formed.
  - intros q c _. apply TreeFacts.write_file_keeps_well_formed.
Qed.

Lemma main_keeps_well_formed_witness :
  let s := Sample.boot Sample.good_and_damaged in
  let s' := (main Sample.crc32 ["r"] true s).1 in
  let r := (main Sample.crc32 ["r"] true s).2 in
  (well_formed (fs s) ∧ main Sample.crc32 ["r"] true s = (s', r))
  ∧ well_formed (fs s').
Proof.
  intros s s' r.
  assert (well_formed (fs s)) as Hwf.
  { apply TreeFacts.well_formed_check_sound. vm_compute. reflexivity. }
  assert (main Sample.crc32 ["r"] true s = (s', r)) as Hmain
    by (vm_compute; reflexivity).
  split; [exact (conj Hwf Hmain)|].
  exact (main_keeps_well_formed Sample.crc32 ["r"] true s s' r Hwf Hmain).
Defined.

(** X5: [main] changes nothing outside the tree it was given.  On a tree
    as a disk holds it, with no [.] or [..] among the names of its nodes,
    whose root is a directory (and so is everything above it), and, in
    subfolder mode, for a scan in which no archive has [.] or [..] for its
    stem: the destination of every archive found is a path of such names
    at or below the root, and every path that is not strictly below the
    root holds after the run exactly what it held before, whatever the
    archives contain and however the run ends.  (The destination of an
    archive called [...zip] is the path of its directory followed by
    [..], which on disk is the directory above; for an archive in the
    root that is outside the tree.) *)
Theorem main_stays_below_root (crc32 : content → N) (base : Path)
    (sub : bool) (s s' : state) (r : exn + unit) :
  canonical (fs s) →
  dir_chain base (fs s) →
  (sub = true →
   Forall (λ z, ordinary (PurePath.stem z)) (os.rglob_zip base (fs s))) →
  main crc32 base sub s = (s', r) →
  (∀ z d : Path,
     z ∈ os.rglob_zip base (fs s) → extract_dir_of sub z = inr d →
     base `prefix_of` d ∧ Forall ordinary d)
  ∧ ∀ p : Path, ¬ (base `prefix_of` p ∧ p ≠ base) → fs s' !! p = fs s !! p.
Proof.
  intros Hcan Hchain Hstems Hmain. split.
  - intros z d Hin Hd.
    pose proof Hin as [_ Hname]%DiscoveryFacts.rglob_zip_name.
    pose proof Hin as ([n Hn] & Hpre & Hne & _)%DiscoveryFacts.elem_of_rglob_zip.
    split; [by eapply StepFacts.extract_dir_below|].
    assert (Forall ordinary (PurePath.parent z)) as Hpar.
    { destruct (StepFacts.parent_prefix z) as [k Hk].
      pose proof (Hcan _ _ Hn) as Hz. simpl in Hz.
      rewrite Hk in Hz. by apply Forall_app in Hz as [? _]. }
    destruct sub; simpl in Hd.
    + rewrite PathFacts.with_suffix_empty in Hd by done. injection Hd as <-.
      apply Forall_app. split; [done|]. constructor; [|done].
      specialize (Hstems eq_refl). rewrite Forall_forall in Hstems.
      by apply Hstems.
    + by injection Hd as <-.
  - eapply (StepFacts.main_R (stays_below base) base);
      [| |exact Hmain|exact Hchain].
    + intros q e. apply TreeFacts.ensure_dir_stays_below.
    + intros q c. apply TreeFacts.write_file_stays_below.
Qed.

Lemma main_stays_below_root_witness :
  let s := Sample.boot Sample.good_and_damaged in
  let s' := (main Sample.crc32 ["r"] true s).1 in
  let r := (main Sample.crc32 ["r"] true s).2 in
  (canonical (fs s)
   ∧ dir_chain ["r"] (fs s)
   ∧ (true = true →
      Forall (λ z, ordinary (PurePath.stem z)) (os.rglob_zip ["r"] (fs s)))
   ∧ main Sample.crc32 ["r"] true s = (s', r))
  ∧ (∀ z d : Path,
       z ∈ os.rglob_zip ["r"] (fs s) → extract_dir_of true z = inr d →
       ["r"] `prefix_of` d ∧ Forall ordinary d)
    ∧ ∀ p : Path,
        ¬ (["r"] `prefix_of` p ∧ p ≠ ["r"]) → fs s' !! p = fs s !! p.
Proof.
  intros s s' r.
  assert (canonical (fs s)) as Hcan.
  { apply (bool_decide_unpack _). vm_compute. exact I. }
  assert (dir_chain ["r"] (fs s)) as Hchain.
  { apply TreeFacts.dir_chain_check_sound. vm_compute. reflexivity. }
  assert (true = true →
          Forall (λ z, ordinary (PurePath.stem z))
                 (os.rglob_zip ["r"] (fs s))) as Hstems.
  { intros _.
    replace (os.rglob_zip ["r"] (fs s))
      with [["r"; "b.zip"]; ["r"; "a.zip"]] by (vm_compute; reflexivity).
    repeat constructor; vm_compute; discriminate. }
  assert (main Sample.crc32 ["r"] true s = (s', r)) as Hmain
    by (vm_compute; reflexivity).
  split; [exact (conj Hcan (conj Hchain (conj Hstems Hmain)))|].
  exact (main_stays_below_root Sample.crc32 ["r"] true s s' r
           Hcan Hchain Hstems Hmain).
Defined.


(** ** What is logged, and how a run can end *)

Module LogFacts.
Import PurePath MonadFacts.

Lemma count_info_app (l1 l2 : list LogRecord) :
  count_info (l1 ++ l2) = count_info l1 + count_info l2.
Proof. unfold count_info. by rewrite filter_app, length_app. Qed.

Lemma count_info_le (l : list LogRecord) : count_info l ≤ length l.
Proof. apply length_filter. Qed.

Lemma count_info_nil : count_info [] = 0.
Proof. reflexivity. Qed.

Lemma count_info_one (l : level) (msg : string) :
  count_info [{| levelname := l; message := msg |}]
  = match l with INFO => 1 | _ => 0 end.
Proof. by destruct l. Qed.

Section crc.
Variable crc32 : content → N.

(** One pass of the loop: one record and one counter, or nothing at all. *)
Lemma loop_body_log (sub : bool) (z : Path) (s s' : state) (r : exn + unit) :
  loop_body crc32 sub z s = (s', r) →
  match r with
  | inr _ =>
      ∃ rec, log s' = log s ++ [rec] ∧ levelname rec ≠ DEBUG
        ∧ extracted_count s' = extracted_count s + count_info [rec]
        ∧ skipped_count s' = skipped_count s + (1 - count_info [rec])
  | inl _ =>
      log s' = log s ∧ extracted_count s' = extracted_count s
      ∧ skipped_count s' = skipped_count s
  end.
Proof.
  rewrite loop_body_unfold.
  destruct (extract_dir_of sub z) as [e|d]; [by intros [= <- <-]|].
  destruct (os.mkdir_parents_exist_ok d (fs s)) as [m1 [e|[]]];
    [by intros [= <- <-]|].
  unfold try_except. rewrite try_block_unfold. cbn [fs set_fs].
  destruct (zipfile.ZipFile z m1).2 as [e|zf].
  { destruct e; intros [= <- <-]; try done;
      (eexists; split_and!; [done|done|rewrite count_info_one; simpl; lia..]). }
  destruct (zipfile.testzip crc32 zf) as [e|[bad|]].
  { destruct e; intros [= <- <-]; try done;
      (eexists; split_and!; [done|done|rewrite count_info_one; simpl; lia..]). }
  { intros [= <- <-]. eexists; split_and!; [done|done|rewrite count_info_one; simpl; lia..]. }
  destruct (zipfile.extractall crc32 zf d m1) as [m' [e|[]]].
  { destruct e; intros [= <- <-]; try done;
      (eexists; split_and!; [done|done|rewrite count_info_one; simpl; lia..]). }
  intros [= <- <-]. eexists; split_and!; [done|done|rewrite count_info_one; simpl; lia..].
Qed.

Lemma for_each_log (sub : bool) (zs : list Path) (s s' : state)
    (r : exn + unit) :
  for_each zs (loop_body crc32 sub) s = (s', r) →
  ∃ new, log s' = log s ++ new
    ∧ Forall (λ rec, levelname rec ≠ DEBUG) new
    ∧ extracted_count s' = extracted_count s + count_info new
    ∧ skipped_count s' = skipped_count s + (length new - count_info new)
    ∧ match r with
      | inr _ => length new = length zs
      | inl _ => length new < length zs
      end.
Proof.
  revert s. induction zs as [|z zs IH]; intros s.
  - intros [= <- <-]. exists []. rewrite app_nil_r.
    split_and!; rewrite ?count_info_nil; simpl; try done; lia.
  - simpl. intros [(e & Hz & ->)|(s1 & [] & Hz & Hzs)]%bind_inv.
    + apply loop_body_log in Hz as (Hl & He & Hk). exists [].
      rewrite app_nil_r. split_and!; rewrite ?count_info_nil; simpl; try done; lia.
    + apply loop_body_log in Hz as (rec & Hl & Hd & He & Hk).
      apply IH in Hzs as (new & Hl' & Hd' & He' & Hk' & Hlen).
      exists (rec :: new).
      pose proof (count_info_app [rec] new) as Hc. simpl app in Hc.
      pose proof (count_info_le [rec]). pose proof (count_info_le new).
      split_and!.
      * by rewrite Hl', Hl, <-app_assoc.
      * by constructor.
      * lia.
      * simpl length in *. lia.
      * destruct r; simpl; lia.
Qed.

(** A pass is left by an exception only when [mkdir] raised it, and then
    all that the pass has changed is what [mkdir] changed before it
    failed. *)
Lemma loop_body_raises (sub : bool) (z : Path) (s s' : state) (e : exn) :
  name z ≠ "" →
  loop_body crc32 sub z s = (s', inl e) →
  ∃ d m', extract_dir_of sub z = inr d
    ∧ os.mkdir_parents_exist_ok d (fs s) = (m', inl e)
    ∧ s' = set_fs (λ _, m') s
    ∧ is_Exception e.
Proof.
  intros Hname. rewrite loop_body_unfold.
  destruct (extract_dir_of sub z) as [e'|d] eqn:Hd.
  { destruct sub; simpl in Hd; [|done].
    by rewrite PathFacts.with_suffix_empty in Hd. }
  destruct (os.mkdir_parents_exist_ok d (fs s)) as [m1 [e'|[]]] eqn:Hmk.
  { intros [= <- <-]. exists d, m1. split_and!; [done..|].
    eapply RaiseFacts.makedirs_from_raises; [|exact Hmk]. by intros q []. }
  unfold try_except.
  destruct (try_block crc32 z d _) as [s2 [e'|[]]] eqn:Htry; [|done].
  apply RaiseFacts.try_block_raises in Htry.
  by rewrite except_clauses_caught.
Qed.

(** A loop that is left by an exception got through the passes before
    the one that raised it. *)
Lemma for_each_raised {S A} (l : list A) (body : A → ST S unit) (s s' : S)
    (e : exn) :
  for_each l body s = (s', inl e) →
  ∃ before x after s1,
    l = before ++ x :: after
    ∧ for_each before body s = (s1, inr tt)
    ∧ body x s1 = (s', inl e).
Proof.
  revert s. induction l as [|x l IH]; intros s; [done|].
  simpl. intros [(e' & Hx & [= <-])|(s1 & [] & Hx & Hl)]%bind_inv.
  - by exists [], x, l, s.
  - destruct (IH _ Hl) as (before & x' & after & s2 & -> & Hb & Hx').
    exists (x :: before), x', after, s2. split_and!; [done| |done].
    simpl. by rewrite bind_unfold, Hx.
Qed.

End crc.

Lemma handler_lines_all (verbose : bool) (new : list LogRecord) :
  Forall (λ rec, levelname rec ≠ DEBUG) new →
  cli.handler_lines verbose new = cli.format <$> new.
Proof.
  intros H. unfold cli.handler_lines. f_equal.
  induction H as [|rec new Hrec _ IH]; [done|].
  rewrite filter_cons_True, IH; [done|].
  destruct verbose, (levelname rec); simpl; try done; lia.
Qed.

End LogFacts.

(** X6: a run that comes to its end has logged exactly one line for each
    archive scanned; when archives were found, the lines at level INFO are
    as many as the "Successfully extracted" count and the others (warnings
    and errors) as many as the "Skipped / failed" count. *)
Theorem one_log_line_per_archive (crc32 : content → N) (base : Path)
    (sub : bool) (s s' : state) :
  main crc32 base sub s = (s', inr tt) →
  let zip_paths := os.rglob_zip base (fs s) in
  ∃ new, log s' = log s ++ new
    ∧ length new = length zip_paths
    ∧ (zip_paths ≠ [] →
         count_info new = extracted_count s'
         ∧ length new - count_info new = skipped_count s').
Proof.
  intros Hmain. cbv zeta. rewrite main_unfold in Hmain.
  destruct (os.exists_ base (fs s)); [|done].
  destruct (os.rglob_zip base (fs s)) as [|z zs] eqn:Hzs.
  { simplify_eq. exists []. by rewrite app_nil_r. }
  cbv zeta in Hmain. rewrite <-Hzs in *. clear Hzs.
  destruct (for_each _ _ _) as [s1 [e|[]]] eqn:Hloop; [done|].
  apply LogFacts.for_each_log in Hloop as (new & Hl & _ & He & Hk & Hlen).
  unfold report, mbind, ST_bind, print, gets, modify in Hmain.
  simplify_eq. cbn in *. exists new. split_and!; [done|done|]. intros _. lia.
Qed.

Lemma one_log_line_per_archive_witness :
  let s := Sample.boot Sample.good_and_damaged in
  let s' := (main Sample.crc32 ["r"] true s).1 in
  main Sample.crc32 ["r"] true s = (s', inr tt)
  ∧ let zip_paths := os.rglob_zip ["r"] (fs s) in
    ∃ new, log s' = log s ++ new
      ∧ length new = length zip_paths
      ∧ (zip_paths ≠ [] →
           count_info new = extracted_count s'
           ∧ length new - count_info new = skipped_count s').
Proof.
  intros s s'.
  assert (main Sample.crc32 ["r"] true s = (s', inr tt)) as Hmain
    by (vm_compute; reflexivity).
  split; [exact Hmain|].
  exact (one_log_line_per_archive Sample.crc32 ["r"] true s s' Hmain).
Defined.

(** X7: the [-v] flag changes nothing that is written: [main] hands
    [logging] records at levels INFO, WARNING and ERROR only, so with the
    threshold [basicConfig] sets for [-v] (DEBUG) and with the one it sets
    without (INFO), the handler writes one line for every record. *)
Theorem verbose_changes_nothing (crc32 : content → N) (base : Path)
    (sub : bool) (s s' : state) (r : exn + unit) :
  main crc32 base sub s = (s', r) →
  ∃ new, log s' = log s ++ new
    ∧ cli.handler_lines true new = cli.handler_lines false new
    ∧ cli.handler_lines false new = cli.format <$> new.
Proof.
  intros Hmain.
  assert (∃ new, log s' = log s ++ new
                 ∧ Forall (λ rec, levelname rec ≠ DEBUG) new)
    as (new & Hl & Hnew).
  { rewrite main_unfold in Hmain.
    destruct (os.exists_ base (fs s));
      [|simplify_eq; exists []; by rewrite app_nil_r].
    destruct (os.rglob_zip base (fs s)) as [|z zs];
      [simplify_eq; exists []; by rewrite app_nil_r|].
    cbv zeta in Hmain.
    destruct (for_each _ _ _) as [s1 [e|[]]] eqn:Hloop.
    - simplify_eq.
      apply LogFacts.for_each_log in Hloop as (new & ? & ? & _). by exists new.
    - apply LogFacts.for_each_log in Hloop as (new & ? & ? & _).
      unfold report, mbind, ST_bind, print, gets, modify in Hmain.
      simplify_eq. by exists new. }
  exists new. by rewrite !LogFacts.handler_lines_all.
Qed.

Lemma verbose_changes_nothing_witness :
  let s := Sample.boot Sample.good_and_damaged in
  let s' := (main Sample.crc32 ["r"] true s).1 in
  let r := (main Sample.crc32 ["r"] true s).2 in
  main Sample.crc32 ["r"] true s = (s', r)
  ∧ ∃ new, log s' = log s ++ new
      ∧ cli.handler_lines true new = cli.handler_lines false new
      ∧ cli.handler_lines false new = cli.format <$> new.
Proof.
  intros s s' r.
  assert (main Sample.crc32 ["r"] true s = (s', r)) as Hmain
    by (vm_compute; reflexivity).
  split; [exact Hmain|].
  exact (verbose_changes_nothing Sample.crc32 ["r"] true s s' r Hmain).
Defined.

(** X8: once line 16 has found the base directory, the one statement
    through which an exception leaves [main] is the [mkdir] of line 40.
    The run got through the archives before some archive of the scan; for
    that archive [mkdir], run on the file system those passes left, raised
    the exception, which is an [Exception] that no clause is there to
    catch.  The pass has logged and counted nothing, all that it changed
    is what [mkdir] changed before it failed, nothing has been printed and
    the exit status is 1. *)
Theorem main_left_only_at_mkdir (crc32 : content → N) (base : Path)
    (sub : bool) (s s' : state) (e : exn) :
  os.exists_ base (fs s) = true →
  main crc32 base sub s = (s', inl e) →
  ∃ (before after : list Path) (z d : Path) (s1 : state),
    os.rglob_zip base (fs s) = before ++ z :: after
    ∧ for_each before (loop_body crc32 sub) (reset_counts s) = (s1, inr tt)
    ∧ extract_dir_of sub z = inr d
    ∧ os.mkdir_parents_exist_ok d (fs s1) = (fs s', inl e)
    ∧ same_script_state s1 s'
    ∧ stdout s' = stdout s
    ∧ is_Exception e
    ∧ exit_status (inl e) = 1%Z.
Proof.
  intros Hex Hmain. rewrite main_unfold, Hex in Hmain.
  destruct (os.rglob_zip base (fs s)) as [|z0 zs] eqn:Hzs; [done|].
  cbv zeta in Hmain. rewrite <-Hzs in *.
  destruct (for_each _ _ _) as [sa [e'|[]]] eqn:Hloop.
  - simplify_eq.
    pose proof (for_each_stdout _ _ _ _ _ _ Hloop) as Hout.
    apply LogFacts.for_each_raised in Hloop
      as (before & z & after & s1 & Hsplit & Hbefore & Hz).
    apply LogFacts.loop_body_raises in Hz as (d & m' & Hd & Hmk & -> & He).
    + exists before, after, z, d, s1.
      split_and!; try done. by destruct e.
    + assert (z ∈ os.rglob_zip base (fs s)) as Hin.
      { rewrite Hsplit. apply elem_of_app. right. by left. }
      by apply DiscoveryFacts.rglob_zip_name in Hin as [_ ?].
  - unfold report, mbind, ST_bind, print, gets, modify in Hmain. done.
Qed.

Lemma main_left_only_at_mkdir_witness :
  let s := Sample.boot Sample.name_taken in
  let s' := (main Sample.crc32 ["r"] true s).1 in
  let e := os.EEXIST ["r"; "b"] in
  (os.exists_ ["r"] (fs s) = true
   ∧ main Sample.crc32 ["r"] true s = (s', inl e))
  ∧ ∃ (before after : list Path) (z d : Path) (s1 : state),
      os.rglob_zip ["r"] (fs s) = before ++ z :: after
      ∧ for_each before (loop_body Sample.crc32 true) (reset_counts s)
        = (s1, inr tt)
      ∧ extract_dir_of true z = inr d
      ∧ os.mkdir_parents_exist_ok d (fs s1) = (fs s', inl e)
      ∧ same_script_state s1 s'
      ∧ stdout s' = stdout s
      ∧ is_Exception e
      ∧ exit_status (inl e) = 1%Z.
Proof.
  intros s s' e.
  assert (os.exists_ ["r"] (fs s) = true) as Hex
    by (vm_compute; reflexivity).
  assert (main Sample.crc32 ["r"] true s = (s', inl e)) as Hmain
    by (vm_compute; reflexivity).
  split; [exact (conj Hex Hmain)|].
  exact (main_left_only_at_mkdir Sample.crc32 ["r"] true s s' e Hex Hmain).
Defined.


(** ** What an extraction leaves behind *)

Module ExtractFacts.
Import PurePath MonadFacts.

Lemma adds_dirs_keeps (m m' : gmap Path node) (t : Path) (n : node) :
  adds_dirs m m' → m !! t = Some n → m' !! t = Some n.
Proof. intros H Ht. destruct (H t) as [->|[? _]]; congruence. Qed.



Section crc.
Variable crc32 : content → N.





End crc.

(** A directory walk that has to end on a regular file fails. *)
Lemma makedirs_from_file (pre : Path) (rest : list string)
    (on_file : Path → list string → exn) (m : gmap Path node) (l : bool)
    (c : content) :
  m !! (pre ++ rest : Path) = Some (File l c) →
  ∃ m' e, os.makedirs_from pre rest on_file m = (m', inl e).
Proof.
  revert pre m. induction rest as [|x rest IH]; intros pre m Hf; simpl.
  - rewrite app_nil_r in Hf. unfold os.ensure_dir. rewrite Hf. eauto.
  - rewrite bind_unfold.
    destruct (os.ensure_dir pre (on_file pre (x :: rest)) m)
      as [m1 [e|[]]] eqn:He; [eauto|].
    apply IH. rewrite <-app_assoc. eapply adds_dirs_keeps; [|exact Hf].
    by eapply RaiseFacts.ensure_dir_adds.
Qed.

(** In a well-formed tree everything above a node is a directory. *)
Lemma well_formed_above (m : gmap Path node) (p : Path) :
  well_formed m → is_Some (m !! p) →
  ∀ q : Path, q `prefix_of` p → q ≠ p → ∃ l, m !! q = Some (Dir l).
Proof.
  intros Hwf. induction p as [|x p IH] using rev_ind; intros [n Hn] q Hq Hne.
  - apply prefix_nil_inv in Hq. done.
  - destruct (Hwf _ _ Hn) as [l Hl]; [by destruct p|].
    unfold parent in Hl. rewrite removelast_last in Hl.
    destruct Hq as [k Hk].
    destruct k as [|y k _] using rev_ind; [by rewrite app_nil_r in Hk|].
    rewrite app_assoc in Hk. apply app_inj_tail in Hk as [-> _].
    destruct (decide (q = q ++ k)) as [E|Hne']; [rewrite E; eauto|].
    apply IH; [eauto|by apply prefix_app_r|done].
Qed.

End ExtractFacts.



(** X10: nothing is written for an archive that cannot be opened or does
    not pass validation: the pass logs, counts the archive as skipped and
    leaves the file system as [mkdir] left it, that is, as it was but for
    directories [mkdir] may have added. *)
Theorem unopened_or_invalid_archive_writes_nothing (crc32 : content → N)
    (sub : bool) (zpath d : Path) (s : state) (m1 : gmap Path node) :
  extract_dir_of sub zpath = inr d →
  os.mkdir_parents_exist_ok d (fs s) = (m1, inr tt) →
  (∀ zf, (zipfile.ZipFile zpath m1).2 = inr zf →
         zipfile.testzip crc32 zf ≠ inr None) →
  ∃ s', loop_body crc32 sub zpath s = (s', inr tt)
    ∧ fs s' = m1
    ∧ adds_dirs (fs s) (fs s')
    ∧ skipped_count s' = skipped_count s + 1
    ∧ extracted_count s' = extracted_count s.
Proof.
  intros Hd Hmk Hbad.
  assert (adds_dirs (fs s) m1) as Hadds
    by (eapply RaiseFacts.makedirs_from_adds; exact Hmk).
  rewrite loop_body_unfold, Hd, Hmk. unfold try_except.
  rewrite try_block_unfold. cbn [fs set_fs].
  pose proof (RaiseFacts.ZipFile_raises zpath m1) as Hraise.
  destruct (zipfile.ZipFile zpath m1) as [m2 [e|zf]] eqn:Hz; cbn [snd] in *.
  { rewrite except_clauses_caught by (by eapply Hraise).
    eexists. split_and!; done. }
  specialize (Hbad zf eq_refl).
  destruct (zipfile.testzip crc32 zf) as [e|[bad|]] eqn:Ht; [| |done].
  - rewrite except_clauses_caught by (by eapply RaiseFacts.testzip_raises).
    eexists. split_and!; done.
  - eexists. split_and!; done.
Qed.

Lemma unopened_or_invalid_archive_writes_nothing_witness :
  let s := Sample.boot Sample.not_a_zip in
  let zpath := ["r"; "c.zip"] in
  let d := ["r"; "c"] in
  let m1 := (os.mkdir_parents_exist_ok d (fs s)).1 in
  (extract_dir_of true zpath = inr d
   ∧ os.mkdir_parents_exist_ok d (fs s) = (m1, inr tt)
   ∧ ∀ zf, (zipfile.ZipFile zpath m1).2 = inr zf →
           zipfile.testzip Sample.crc32 zf ≠ inr None)
  ∧ ∃ s', loop_body Sample.crc32 true zpath s = (s', inr tt)
      ∧ fs s' = m1
      ∧ adds_dirs (fs s) (fs s')
      ∧ skipped_count s' = skipped_count s + 1
      ∧ extracted_count s' = extracted_count s.
Proof.
  intros s zpath d m1.
  assert (extract_dir_of true zpath = inr d) as Hd
    by (vm_compute; reflexivity).
  assert (os.mkdir_parents_exist_ok d (fs s) = (m1, inr tt)) as Hmk
    by (vm_compute; reflexivity).
  assert (∀ zf, (zipfile.ZipFile zpath m1).2 = inr zf →
                zipfile.testzip Sample.crc32 zf ≠ inr None) as Hbad.
  { intros zf Hzf. vm_compute in Hzf. discriminate Hzf. }
  split; [exact (conj Hd (conj Hmk Hbad))|].
  exact (unopened_or_invalid_archive_writes_nothing Sample.crc32 true zpath d
           s m1 Hd Hmk Hbad).
Defined.

(** X11: when the path chosen as destination is taken by a regular file,
    [mkdir] on line 40 raises, and since it stands outside the [try]
    statement the exception ends the loop there: nothing is logged or
    counted for the archive, no file is touched, and the archives after it
    are not processed. *)
Theorem destination_taken_by_file (crc32 : content → N) (sub : bool)
    (zpath d : Path) (s : state) (l : bool) (c : content)
    (rest : list Path) :
  extract_dir_of sub zpath = inr d →
  fs s !! d = Some (File l c) →
  ∃ s' e,
    for_each (zpath :: rest) (loop_body crc32 sub) s = (s', inl e)
    ∧ is_Exception e
    ∧ exit_status (inl e) = 1%Z
    ∧ same_script_state s s'
    ∧ adds_dirs (fs s) (fs s').
Proof.
  intros Hd Hfile.
  destruct (ExtractFacts.makedirs_from_file [] d os.mkdir_on_file (fs s)
              l c Hfile) as (m' & e & Hmk).
  assert (is_Exception e) as He.
  { eapply RaiseFacts.makedirs_from_raises; [|exact Hmk]. by intros q []. }
  exists (set_fs (λ _, m') s), e. split_and!.
  - simpl. rewrite MonadFacts.bind_unfold, loop_body_unfold, Hd.
    unfold os.mkdir_parents_exist_ok. by rewrite Hmk.
  - done.
  - by destruct e.
  - done.
  - simpl. by eapply RaiseFacts.makedirs_from_adds.
Qed.

Lemma destination_taken_by_file_witness :
  let s := Sample.boot Sample.name_taken in
  (extract_dir_of true ["r"; "b.zip"] = inr ["r"; "b"]
   ∧ fs s !! ["r"; "b"] = Some (File false (Raw (Sample.bytes "notes"))))
  ∧ ∃ s' e,
      for_each (["r"; "b.zip"] :: [["r"; "a.zip"]])
        (loop_body Sample.crc32 true) s = (s', inl e)
      ∧ is_Exception e
      ∧ exit_status (inl e) = 1%Z
      ∧ same_script_state s s'
      ∧ adds_dirs (fs s) (fs s').
Proof.
  intros s.
  assert (extract_dir_of true ["r"; "b.zip"] = inr ["r"; "b"]) as Hd
    by (vm_compute; reflexivity).
  assert (fs s !! ["r"; "b"] = Some (File false (Raw (Sample.bytes "notes"))))
    as Hfile by (vm_compute; reflexivity).
  split; [exact (conj Hd Hfile)|].
  exact (destination_taken_by_file Sample.crc32 true ["r"; "b.zip"] ["r"; "b"]
           s false (Raw (Sample.bytes "notes")) [["r"; "a.zip"]] Hd Hfile).
Defined.

(** X12: in subfolder mode two different archives of one scan never share
    a destination, and the destination of an archive is never the archive
    itself, as long as neither is called [.zip] and what stands before
    [.zip] in the name is a name that a directory entry can have (not [.]
    or [..]): the destination is then a path with the parent of the
    archive that ends in such a name. *)
Theorem subfolder_destinations_differ (base : Path) (m : gmap Path node)
    (z1 z2 d : Path) :
  z1 ∈ os.rglob_zip base m → z2 ∈ os.rglob_zip base m →
  PurePath.name z1 ≠ ".zip" → PurePath.name z2 ≠ ".zip" →
  ordinary (PurePath.stem z1) →
  extract_dir_of true z1 = inr d →
  extract_dir_of true z2 = inr d →
  z1 = z2 ∧ d ≠ z1 ∧ PurePath.parent d = PurePath.parent z1
  ∧ ordinary (PurePath.name d).
Proof.
  intros Hin1 Hin2 Hdot1 Hdot2 Hord1 Hd1 Hd2. simpl in Hd1, Hd2.
  assert (∀ z : Path, z ∈ os.rglob_zip base m → PurePath.name z ≠ ".zip" →
            z ≠ [] ∧ PurePath.name z ≠ ""
            ∧ PurePath.name z = PurePath.stem z +:+ ".zip") as Hshape.
  { intros z Hin Hdot.
    pose proof Hin as [Hne Hname]%DiscoveryFacts.rglob_zip_name.
    apply DiscoveryFacts.elem_of_rglob_zip in Hin as (_ & _ & _ & Hz).
    apply StrFacts.endswith_inv in Hz. set (n := Str.take _ _) in Hz.
    assert (n ≠ "") as Hn by (intros E; by rewrite E in Hz).
    split_and!; [done..|]. by rewrite (PathFacts.stem_zip _ _ Hn Hz). }
  destruct (Hshape _ Hin1 Hdot1) as (Hz1 & Hname1 & Hn1).
  destruct (Hshape _ Hin2 Hdot2) as (Hz2 & Hname2 & Hn2).
  rewrite PathFacts.with_suffix_empty in Hd1, Hd2 by done.
  injection Hd1 as <-. injection Hd2 as Hd2.
  apply app_inj_tail in Hd2 as [Hpar Hstem].
  split_and!.
  - rewrite (PathFacts.parent_name z1 Hz1), (PathFacts.parent_name z2 Hz2).
    by rewrite Hpar, Hn1, Hn2, Hstem.
  - intros E. pose proof (PathFacts.parent_name z1 Hz1) as Hp.
    rewrite Hn1 in Hp.
    assert (PurePath.parent z1 ++ [PurePath.stem z1]
            = PurePath.parent z1 ++ [PurePath.stem z1 +:+ ".zip"]) as E'
      by (etrans; [exact E|exact Hp]).
    apply app_inj_tail in E' as [_ E'].
    apply (f_equal String.length) in E'.
    rewrite StrFacts.length_app in E'. simpl in E'. lia.
  - by rewrite PathFacts.parent_snoc.
  - by rewrite PathFacts.name_snoc.
Qed.

Lemma subfolder_destinations_differ_witness :
  let m := Sample.two_archives in
  let z := ["r"; "a.zip"] in
  (z ∈ os.rglob_zip ["r"] m ∧ z ∈ os.rglob_zip ["r"] m
   ∧ PurePath.name z ≠ ".zip" ∧ PurePath.name z ≠ ".zip"
   ∧ ordinary (PurePath.stem z)
   ∧ extract_dir_of true z = inr ["r"; "a"]
   ∧ extract_dir_of true z = inr ["r"; "a"])
  ∧ z = z ∧ ["r"; "a"] ≠ z
    ∧ PurePath.parent ["r"; "a"] = PurePath.parent z
    ∧ ordinary (PurePath.name ["r"; "a"]).
Proof.
  intros m z.
  assert (z ∈ os.rglob_zip ["r"] m) as Hin.
  { apply (bool_decide_unpack _). vm_compute. exact I. }
  assert (PurePath.name z ≠ ".zip") as Hdot by discriminate.
  assert (ordinary (PurePath.stem z)) as Hord.
  { vm_compute. split_and!; discriminate. }
  assert (extract_dir_of true z = inr ["r"; "a"]) as Hd
    by (vm_compute; reflexivity).
  split;
    [exact (conj Hin (conj Hin (conj Hdot (conj Hdot (conj Hord
              (conj Hd Hd))))))|].
  exact (subfolder_destinations_differ ["r"] m z z ["r"; "a"]
           Hin Hin Hdot Hdot Hord Hd Hd).
Defined.

(** X13: in flat mode, on a well-formed tree, line 40 does nothing: the
    destination is the directory the archive is in, which is there with
    everything above it, so a pass of the loop is its [try] statement run
    on the state as it was. *)
Theorem flat_mode_makes_no_directory (crc32 : content → N) (zpath : Path)
    (s : state) :
  well_formed (fs s) →
  is_Some (fs s !! zpath) →
  zpath ≠ [] →
  os.mkdir_parents_exist_ok (PurePath.parent zpath) (fs s) = (fs s, inr tt)
  ∧ loop_body crc32 false zpath s
    = try_except (try_block crc32 zpath (PurePath.parent zpath))
        (except_clauses zpath) s.
Proof.
  intros Hwf Hz Hne.
  assert (os.mkdir_parents_exist_ok (PurePath.parent zpath) (fs s)
          = (fs s, inr tt)) as Hmk.
  { apply MkdirFacts.makedirs_from_noop. intros q _ Hq. simpl in Hq.
    apply (ExtractFacts.well_formed_above _ zpath Hwf Hz).
    - etrans; [exact Hq|]. apply StepFacts.parent_prefix.
    - intros ->. apply prefix_length in Hq.
      rewrite (PathFacts.parent_name zpath Hne) in Hq at 1.
      rewrite length_app in Hq. simpl in Hq. lia. }
  split; [done|].
  rewrite loop_body_unfold. simpl extract_dir_of. cbv iota beta.
  by rewrite Hmk, MonadFacts.set_fs_same.
Qed.

Lemma flat_mode_makes_no_directory_witness :
  let s := Sample.boot Sample.one_archive in
  let zpath := ["r"; "a.zip"] in
  (well_formed (fs s) ∧ is_Some (fs s !! zpath) ∧ zpath ≠ [])
  ∧ os.mkdir_parents_exist_ok (PurePath.parent zpath) (fs s) = (fs s, inr tt)
  ∧ loop_body Sample.crc32 false zpath s
    = try_except (try_block Sample.crc32 zpath (PurePath.parent zpath))
        (except_clauses zpath) s.
Proof.
  intros s zpath.
  assert (well_formed (fs s)) as Hwf.
  { apply TreeFacts.well_formed_check_sound. vm_compute. reflexivity. }
  assert (is_Some (fs s !! zpath)) as Hz by (by eexists).
  assert (zpath ≠ []) as Hne by discriminate.
  split; [exact (conj Hwf (conj Hz Hne))|].
  exact (flat_mode_makes_no_directory Sample.crc32 zpath s Hwf Hz Hne).
Defined.
